(** * The pipeline execution state store of tssc: [tssc/workflow_result.py]

    A shallow embedding of the class [WorkflowResult] (the ordered list of
    step results, its upsert with deep-merge, its queries and its pickle
    persistence) together with the properties of it that were checked. *)

From stdpp Require Import gmap strings list fin_maps.

#[local] Set Warnings "-register-all".
#[local] Open Scope string_scope.
#[local] Open Scope list_scope.

(** ** Python values, exceptions *)

(** The non-mapping values that occur in results: [str], [int], [bool] and
    [None].  Everything that is not a [dict] behaves the same way in the code
    modelled here. *)
Inductive atom :=
  | AStr (s : string)
  | AInt (z : Z)
  | ABool (b : bool)
  | ANone.

(** A Python value is an atom or a [dict] with string keys.  Equality of
    [gmap]s is extensional, as [==] on [dict]s is: the insertion order of a
    [dict] is not observable by any property stated below. *)
Inductive pyval :=
  | PAtom (a : atom)
  | PDict (d : gmap string pyval).

Abbreviation PNone := (PAtom ANone).
Abbreviation PStr s := (PAtom (AStr s)).
Abbreviation PBool b := (PAtom (ABool b)).

#[global] Instance atom_eq_dec : EqDecision atom.
Proof. solve_decision. Defined.

Definition is_None (v : pyval) : bool :=
  match v with
  | PAtom ANone => true
  | _ => false
  end.

(** The exception classes that the modelled code raises or lets through. *)
Inductive exn :=
  | TypeError        (* [{**x}] on a value that is not a mapping *)
  | KeyError         (* [d[k]] on a missing key *)
  | RecursionError   (* the recursion budget of [merge_results_aux] ran out *)
  | OSError          (* a failing file system call *)
  | EOFError         (* [pickle.load] at the end of the input *)
  | UnpicklingError  (* [pickle.load] on bytes that are no pickle stream *)
  | TSSCException
  | RuntimeError.

(** The outcome of a call: a returned value or a raised exception. *)
Inductive res (A : Type) :=
  | Ok (a : A)
  | Raise (e : exn).
Arguments Ok {A} a.
Arguments Raise {A} e.

#[global] Instance res_ret : MRet res := λ A a, Ok a.
#[global] Instance res_fmap : FMap res :=
  λ A B f m, match m with Ok a => Ok (f a) | Raise e => Raise e end.
#[global] Instance res_bind : MBind res :=
  λ A B f m, match m with Ok a => f a | Raise e => Raise e end.

(** [except Exception as error: raise e from error] around a call. *)
Definition reraise_as {A} (e : exn) (m : res A) : res A :=
  match m with
  | Ok a => Ok a
  | Raise _ => Raise e
  end.

Definition is_Ok {A} (m : res A) : Prop := ∃ a, m = Ok a.

(** Nesting depth of a value; it bounds the recursion of [merge_results]. *)
Fixpoint depth (v : pyval) : nat :=
  match v with
  | PAtom _ => 0
  | PDict d => S (map_fold (λ _ v acc, depth v `max` acc) 0 d)
  end.

(** ** StepResult *)

Module StepResult.

(** Modelled from the spec: the class [tssc.step_result.StepResult] is
    imported by [workflow_result.py] but is not part of the sources at hand.
    Its fields follow the spec's StageResult
    [{stage_name, sub_stage_name : string|absent, implementer_name,
    succeeded, message, artifacts}]; [artifacts] is the [dict] that
    [WorkflowResult.add_step_result] reads, merges and updates. *)
Record t := mk {
  step_name : string;
  sub_step_name : option string;
  sub_step_implementer_name : string;
  success : bool;
  message : string;
  artifacts : gmap string pyval;
}.

Definition set_artifacts (r : t) (a : gmap string pyval) : t :=
  mk (step_name r) (sub_step_name r) (sub_step_implementer_name r)
     (success r) (message r) a.

(** The identity of an entry of the store. *)
Definition identity (r : t) : string * option string :=
  (step_name r, sub_step_name r).

(** Modelled from the spec: an Artifact
    [{name, description, kind : string|file, value}] as it is rendered,
    [{"description": .., "type": .., "value": ..}], stored under its name. *)
Definition artifact (description type : string) (value : pyval) : pyval :=
  PDict {[ "description" := PStr description;
           "type" := PStr type;
           "value" := value ]}.

Definition add_artifact (r : t) (name description type : string) (value : pyval) : t :=
  set_artifacts r (<[name := artifact description type value]> (artifacts r)).

(** Modelled from the spec: [StepResult.get_artifact_value(name)], the value
    of the artifact of that name, [None] when there is none. *)
Definition get_artifact_value (r : t) (name : string) : pyval :=
  match artifacts r !! name with
  | Some (PDict a) => default PNone (a !! "value")
  | _ => PNone
  end.

(** Modelled from the spec: the rendered entry of the wire shape,
    [{"implementer-name", "sub-step-name", "success", "message",
    "artifacts"}]; an absent sub step name is rendered as the empty string. *)
Definition get_sub_step_result (r : t) : gmap string pyval :=
  {[ "implementer-name" := PStr (sub_step_implementer_name r);
     "sub-step-name" := PStr (default "" (sub_step_name r));
     "success" := PBool (success r);
     "message" := PStr (message r);
     "artifacts" := PDict (artifacts r) ]}.

(** Modelled from the spec: [StepResult.get_step_result()],
    [{step_name: {sub_step_name: rendered entry}}]. *)
Definition get_step_result (r : t) : gmap string pyval :=
  {[ step_name r :=
       PDict {[ default "" (sub_step_name r) := PDict (get_sub_step_result r) ]} ]}.

(** The artifacts of an entry have the shape of the spec's data model: each
    one is a rendered Artifact whose value is not [None]. *)
Definition well_formed (r : t) : Prop :=
  ∀ name a, artifacts r !! name = Some a →
    ∃ description type value,
      a = artifact description type value ∧ is_None value = false.

End StepResult.

(** ** WorkflowResult *)

Module WorkflowResult.

(** [self.__workflow_list] *)
Record t := mk { workflow_list : list StepResult.t }.

(** [WorkflowResult()] *)
Definition new : t := mk [].

(** What [isinstance] tells apart among the objects handed to the store or
    found in a pickle file. *)
Inductive pyobj :=
  | ObjStepResult (r : StepResult.t)
  | ObjWorkflowResult (w : t)
  | ObjValue (v : pyval).

(** *** merge_results *)

(** [merge_results(dict1, dict2)].  The recursive call passes [dict2[k]]
    unchecked, so the second argument is any value; [{**dict2, **dict1}]
    raises [TypeError] when it is not a mapping.  [intersection] carries
    [dict1]'s value on the keys of both.  The loop runs over
    [intersection.items()]; each key is visited once, so the order of the
    visit does not show in [output].  [fuel] bounds the recursion depth. *)
Fixpoint merge_results_aux (fuel : nat) (dict1 : gmap string pyval) (dict2 : pyval)
  : res (gmap string pyval) :=
  match fuel with
  | O => Raise RecursionError
  | S fuel' =>
    match dict2 with
    | PAtom _ => Raise TypeError
    | PDict dict2 =>
      let intersection := dict1 ∪ dict2 in
      foldl (λ acc '(k_intersect, v_intersect),
        output ← acc;
        match dict1 !! k_intersect, dict2 !! k_intersect with
        | None, Some v_dict2 => Ok (<[k_intersect := v_dict2]> output)
        | None, None => Raise KeyError
        | Some _, None => Ok (<[k_intersect := v_intersect]> output)
        | Some _, Some v_dict2 =>
          match v_intersect with
          | PDict d =>
            merged ← merge_results_aux fuel' d v_dict2;
            Ok (<[k_intersect := PDict merged]> output)
          | PAtom _ => Ok (<[k_intersect := v_intersect]> output)
          end
        end) (Ok ∅) (map_to_list intersection)
    end
  end.

(** The recursion descends into the values of [dict1], so the depth of
    [dict1] is fuel enough ([merge_results_unfold] below). *)
Definition merge_results (dict1 : gmap string pyval) (dict2 : pyval)
  : res (gmap string pyval) :=
  merge_results_aux (depth (PDict dict1)) dict1 dict2.

(** *** Queries *)

(** The three [for] loops of [get_artifact_value]; [value] is the local
    variable of that name, returned as it stands when the loop ends. *)
Fixpoint scan_step_sub_step (artifact step_name sub_step_name : string)
    (value : pyval) (l : list StepResult.t) : pyval :=
  match l with
  | [] => value
  | step_result :: rest =>
    if decide (StepResult.step_name step_result = step_name) then
      if decide (StepResult.sub_step_name step_result = Some sub_step_name) then
        StepResult.get_artifact_value step_result artifact (* break *)
      else scan_step_sub_step artifact step_name sub_step_name value rest
    else scan_step_sub_step artifact step_name sub_step_name value rest
  end.

Fixpoint scan_step (artifact step_name : string)
    (value : pyval) (l : list StepResult.t) : pyval :=
  match l with
  | [] => value
  | step_result :: rest =>
    if decide (StepResult.step_name step_result = step_name) then
      let value := StepResult.get_artifact_value step_result artifact in
      if negb (is_None value) then value (* break *)
      else scan_step artifact step_name value rest
    else scan_step artifact step_name value rest
  end.

Fixpoint scan_all (artifact : string)
    (value : pyval) (l : list StepResult.t) : pyval :=
  match l with
  | [] => value
  | step_result :: rest =>
    let value := StepResult.get_artifact_value step_result artifact in
    if negb (is_None value) then value (* break *)
    else scan_all artifact value rest
  end.

(** [get_artifact_value(artifact, step_name=None, sub_step_name=None)] *)
Definition get_artifact_value (self : t) (artifact : string)
    (step_name sub_step_name : option string) : pyval :=
  let value := PNone in
  match step_name with
  | Some step_name =>
    match sub_step_name with
    | Some sub_step_name =>
      scan_step_sub_step artifact step_name sub_step_name value (workflow_list self)
    | None => scan_step artifact step_name value (workflow_list self)
    end
  | None => scan_all artifact value (workflow_list self)
  end.

(** [get_step_result_by_step_name(step_name, sub_step_name)] *)
Fixpoint get_step_result_by_step_name_in (l : list StepResult.t)
    (step_name : string) (sub_step_name : option string) : option StepResult.t :=
  match l with
  | [] => None
  | current :: rest =>
    if decide (StepResult.step_name current = step_name) then
      if decide (StepResult.sub_step_name current = sub_step_name) then Some current
      else get_step_result_by_step_name_in rest step_name sub_step_name
    else get_step_result_by_step_name_in rest step_name sub_step_name
  end.

Definition get_step_result_by_step_name (self : t)
    (step_name : string) (sub_step_name : option string) : option StepResult.t :=
  get_step_result_by_step_name_in (workflow_list self) step_name sub_step_name.

(** *** Upsert *)

(** The loop of [delete_step_result_by_name]:
    [for i, current in enumerate(l): if ..: del l[i]].  The list iterator
    and [enumerate] advance together whatever is deleted, so round [i] looks
    at position [i] of the list as it is then, and the loop ends when [i]
    is past its end.  There are at most [length l] rounds. *)
Fixpoint delete_loop (rounds i : nat) (step_name : string)
    (l : list StepResult.t) : list StepResult.t :=
  match rounds with
  | O => l
  | S rounds' =>
    match l !! i with
    | None => l
    | Some current =>
      if decide (StepResult.step_name current = step_name)
      then delete_loop rounds' (S i) step_name (delete i l)
      else delete_loop rounds' (S i) step_name l
    end
  end.

Definition delete_step_result_by_name (self : t) (step_name : string) : t :=
  mk (delete_loop (length (workflow_list self)) 0 step_name (workflow_list self)).

(** [add_step_result(step_result)].  A raised exception leaves the store as
    it was: both [raise]s precede the first mutation.
    [step_result.artifacts.update(merged)] lets [merged] override.  A found
    [step_old] is an object without [__bool__] or [__len__], hence true.

    Entries are passed by value here, while Python shares the object.  The
    only mutation is the [update] of the artifacts of the object handed in,
    so the two differ only if that very object is already an entry of the
    list and [merged] differs from its artifacts; [merge_results_same] rules
    this out when [step_old] is the object itself. *)
Definition add_step_result (self : t) (step_result : pyobj) : res t :=
  match step_result with
  | ObjStepResult step_result =>
    let step_name := StepResult.step_name step_result in
    let sub_step_name := StepResult.sub_step_name step_result in
    match get_step_result_by_step_name self step_name sub_step_name with
    | Some step_old =>
      merged ← merge_results (StepResult.artifacts step_result)
                             (PDict (StepResult.artifacts step_old));
      let step_result :=
        StepResult.set_artifacts step_result
          (merged ∪ StepResult.artifacts step_result) in
      let self := delete_step_result_by_name self step_name in
      Ok (mk (workflow_list self ++ [step_result]))
    | None => Ok (mk (workflow_list self ++ [step_result]))
    end
  | _ => Raise TSSCException
  end.

(** A run of [add_step_result] calls; it stops at the first exception. *)
Definition add_step_results (self : t) (l : list StepResult.t) : res t :=
  foldl (λ acc r, self ← acc; add_step_result self (ObjStepResult r)) (Ok self) l.

(** [get_all_step_results()] *)
Definition get_all_step_results (self : t) : res (gmap string pyval) :=
  all_results ←
    foldl (λ acc i,
             all_results ← acc;
             merge_results all_results (PDict (StepResult.get_step_result i)))
          (Ok ∅) (workflow_list self);
  Ok {[ "tssc-results" := PDict all_results ]}.

(** No two entries with the same [(step_name, sub_step_name)]. *)
Definition unique_identities (self : t) : Prop :=
  NoDup (StepResult.identity <$> workflow_list self).

(** *** The file system, as far as the file handlers use it *)

(** What a regular file holds: nothing at all, the pickle stream of an
    object (which [pickle.load] turns back into that object), or other
    bytes, on which [pickle.load] raises. *)
Inductive content :=
  | Empty
  | Pickle (o : pyobj)
  | Garbage.

(** A file system is a tree of directories and regular files. *)
Inductive node :=
  | File (c : content)
  | Dir (entries : gmap string node).

(** A file name is the list of its components below the root of the tree;
    [os.path.dirname] drops the last one, and the empty list stands for the
    empty string. *)
Definition dirname (filename : list string) : list string := removelast filename.

Fixpoint walk (fs : node) (p : list string) : option node :=
  match p with
  | [] => Some fs
  | c :: p' =>
    match fs with
    | Dir entries => entries !! c ≫= λ child, walk child p'
    | File _ => None
    end
  end.

(** [os.path.exists], [os.path.isfile], [os.path.isdir] *)
Definition exists_ (fs : node) (p : list string) : bool :=
  match walk fs p with Some _ => true | None => false end.

Definition isfile (fs : node) (p : list string) : bool :=
  match walk fs p with Some (File _) => true | _ => false end.

Definition isdir (fs : node) (p : list string) : bool :=
  match walk fs p with Some (Dir _) => true | _ => false end.

(** [os.path.getsize(p) == 0] on a regular file *)
Definition zero_length (c : content) : bool :=
  match c with Empty => true | _ => false end.

Fixpoint fresh_dirs (p : list string) : node :=
  match p with
  | [] => Dir ∅
  | c :: p' => Dir {[ c := fresh_dirs p' ]}
  end.

(** [os.makedirs(p)]: the directories of [p] that are missing are created;
    [OSError] when a component is a regular file or [p] itself exists. *)
Fixpoint makedirs (fs : node) (p : list string) : res node :=
  match fs, p with
  | File _, _ => Raise OSError
  | Dir _, [] => Raise OSError
  | Dir entries, c :: p' =>
    match entries !! c with
    | None => Ok (Dir (<[c := fresh_dirs p']> entries))
    | Some child =>
      child' ← makedirs child p';
      Ok (Dir (<[c := child']> entries))
    end
  end.

(** [open(p, 'wb')] followed by the write of [c]: the directory of [p] must
    exist and [p] must not be a directory. *)
Fixpoint write_file (fs : node) (p : list string) (c : content) : res node :=
  match fs, p with
  | File _, _ => Raise OSError
  | Dir _, [] => Raise OSError
  | Dir entries, name :: p' =>
    match p' with
    | [] =>
      match entries !! name with
      | Some (Dir _) => Raise OSError
      | _ => Ok (Dir (<[name := File c]> entries))
      end
    | _ :: _ =>
      match entries !! name with
      | None => Raise OSError
      | Some child =>
        child' ← write_file child p' c;
        Ok (Dir (<[name := child']> entries))
      end
    end
  end.

(** [pickle.load(file)] *)
Definition pickle_load (c : content) : res pyobj :=
  match c with
  | Empty => Raise EOFError
  | Pickle o => Ok o
  | Garbage => Raise UnpicklingError
  end.

(** [folder_create(filename)] *)
Definition folder_create (fs : node) (filename : list string) : res node :=
  let path := dirname filename in
  if bool_decide (path ≠ []) && negb (exists_ fs path)
  then makedirs fs (dirname filename)
  else Ok fs.

(** [load_from_pickle_file(pickle_filename)]: the file system it leaves
    behind, and what it returns or raises.  Every exception of the [try]
    block, the [TSSCException] of the [isinstance] test included, is raised
    again as a [TSSCException]. *)
Definition load_from_pickle_file (fs : node) (pickle_filename : list string)
  : node * res t :=
  match folder_create fs pickle_filename with
  | Raise _ => (fs, Raise TSSCException)
  | Ok fs =>
    match walk fs pickle_filename with
    | Some (File c) =>
      if zero_length c then (fs, Ok new)
      else
        (fs, reraise_as TSSCException
               (workflow_result ← pickle_load c;
                match workflow_result with
                | ObjWorkflowResult w => Ok w
                | _ => Raise TSSCException
                end))
    | _ => (fs, Ok new)
    end
  end.

(** [write_to_pickle_file(pickle_filename)] *)
Definition write_to_pickle_file (self : t) (fs : node) (pickle_filename : list string)
  : node * res () :=
  match folder_create fs pickle_filename with
  | Raise _ => (fs, Raise RuntimeError)
  | Ok fs =>
    match write_file fs pickle_filename (Pickle (ObjWorkflowResult self)) with
    | Raise _ => (fs, Raise RuntimeError)
    | Ok fs => (fs, Ok ())
    end
  end.

(** *** The other views and writers *)

(** [get_step_result(step_name)].  The key of an entry is its sub step name,
    which is rendered as the empty string when it is absent, as in
    [StepResult.get_step_result]. *)
Definition get_step_result (self : t) (step_name : string) : gmap string pyval :=
  let result :=
    foldl (λ result step_result,
             if decide (StepResult.step_name step_result = step_name)
             then <[default "" (StepResult.sub_step_name step_result)
                    := PDict (StepResult.get_sub_step_result step_result)]> result
             else result)
          ∅ (workflow_list self) in
  {[ "tssc-results" := PDict {[ step_name := PDict result ]} ]}.

(** [write_results_to_yml_file(yml_filename)].  [open(yml_filename, 'w')]
    creates or truncates the file before the results are computed;
    [yaml_dump results] stands for the bytes that [yaml.dump] writes.  Every
    exception of the [try] block is raised again as a [RuntimeError]. *)
Definition write_results_to_yml_file (yaml_dump : gmap string pyval → content)
    (self : t) (fs : node) (yml_filename : list string) : node * res () :=
  match folder_create fs yml_filename with
  | Raise _ => (fs, Raise RuntimeError)
  | Ok fs =>
    match write_file fs yml_filename Empty with
    | Raise _ => (fs, Raise RuntimeError)
    | Ok fs =>
      match get_all_step_results self with
      | Raise _ => (fs, Raise RuntimeError)
      | Ok results =>
        match write_file fs yml_filename (yaml_dump results) with
        | Raise _ => (fs, Raise RuntimeError)
        | Ok fs => (fs, Ok ())
        end
      end
    end
  end.

(** [write_results_to_json_file(json_filename)], the same with [json.dump]. *)
Definition write_results_to_json_file (json_dump : gmap string pyval → content)
    (self : t) (fs : node) (json_filename : list string) : node * res () :=
  match folder_create fs json_filename with
  | Raise _ => (fs, Raise RuntimeError)
  | Ok fs =>
    match write_file fs json_filename Empty with
    | Raise _ => (fs, Raise RuntimeError)
    | Ok fs =>
      match get_all_step_results self with
      | Raise _ => (fs, Raise RuntimeError)
      | Ok results =>
        match write_file fs json_filename (json_dump results) with
        | Raise _ => (fs, Raise RuntimeError)
        | Ok fs => (fs, Ok ())
        end
      end
    end
  end.

End WorkflowResult.

Import WorkflowResult.

(** ** Definitions used to state and prove the properties *)

(** The loop of [merge_results] with its body split off: what is stored under
    one key of [intersection], given the function [rec] that merges two
    sub-mappings. *)
Definition merge_entry (rec : gmap string pyval → pyval → res (gmap string pyval))
    (dict1 dict2 : gmap string pyval) (k : string) (v : pyval) : res pyval :=
  match dict1 !! k, dict2 !! k with
  | None, Some v_dict2 => Ok v_dict2
  | None, None => Raise KeyError
  | Some _, None => Ok v
  | Some _, Some v_dict2 =>
    match v with
    | PDict d => PDict <$> rec d v_dict2
    | PAtom _ => Ok v
    end
  end.

Section collect.
Context {V W : Type} (body : string → V → res W).

Definition collect_step (acc : res (gmap string W)) (kv : string * V)
  : res (gmap string W) :=
  output ← acc; r ← body kv.1 kv.2; Ok (<[kv.1 := r]> output).

(** A loop that stores [body k v] under [k] for every item of [l] and stops
    at the first exception. *)
Definition collect (l : list (string * V)) : res (gmap string W) :=
  foldl collect_step (Ok ∅) l.
End collect.

(** [clash dict1 dict2]: somewhere along a path of keys that both trees share
    and on which [dict1] holds mappings, [dict2] holds a value that is not a
    mapping. *)
Inductive clash : gmap string pyval → pyval → Prop :=
  | clash_here dict1 a : clash dict1 (PAtom a)
  | clash_below dict1 dict2 k d v :
      dict1 !! k = Some (PDict d) → dict2 !! k = Some v → clash d v →
      clash dict1 (PDict dict2).

(** [yields r artifact]: the entry gives a value for the artifact. *)
Definition yields (r : StepResult.t) (artifact : string) : Prop :=
  is_None (StepResult.get_artifact_value r artifact) = false.

(** [has_artifact r name]: the entry has an artifact of that name. *)
Definition has_artifact (r : StepResult.t) (name : string) : Prop :=
  is_Some (StepResult.artifacts r !! name).

(** What the loop of [delete_step_result_by_name] amounts to: an entry of
    that step name is dropped, and the entry after a dropped one is kept
    without being looked at. *)
Fixpoint delete_scan (step_name : string) (l : list StepResult.t) : list StepResult.t :=
  match l with
  | [] => []
  | current :: rest =>
    if decide (StepResult.step_name current = step_name) then
      match rest with
      | [] => []
      | skipped :: rest' => skipped :: delete_scan step_name rest'
      end
    else current :: delete_scan step_name rest
  end.

(** A stage with a single sub step: the entries of the step name of [r] all
    have the identity of [r]. *)
Definition single_sub_step (r : StepResult.t) (l : list StepResult.t) : Prop :=
  Forall (λ other, StepResult.step_name other = StepResult.step_name r →
                   StepResult.identity other = StepResult.identity r) l.

(** Whether a rendered snapshot shows an entry for [(step_name,
    sub_step_name)]. *)
Definition renders (rendered : res (gmap string pyval))
    (step_name sub_step_name : string) : bool :=
  match rendered with
  | Ok results =>
    match results !! "tssc-results" with
    | Some (PDict all_results) =>
      match all_results !! step_name with
      | Some (PDict sub_steps) =>
        match sub_steps !! sub_step_name with
        | Some _ => true
        | None => false
        end
      | _ => false
      end
    | _ => false
    end
  | Raise _ => false
  end.

(** ** Sample data *)

(** An entry [(step, sub)] with one artifact ["v"] of the given value. *)
Definition entry_v (step sub value : string) : StepResult.t :=
  StepResult.add_artifact
    (StepResult.mk step (Some sub) "impl" true "" ∅) "v" "" "str" (PStr value).

(** An entry [(step, sub)] without artifacts. *)
Definition entry_0 (step sub : string) : StepResult.t :=
  StepResult.mk step (Some sub) "impl" true "" ∅.

Definition build_x : StepResult.t := entry_v "build" "x" "1".
Definition build_y : StepResult.t := entry_v "build" "y" "2".
Definition test_0 : StepResult.t := entry_0 "test" "unit".
Definition build_x3 : StepResult.t := entry_v "build" "x" "3".
Definition store_xy : t := mk [build_x; build_y].
Definition store_0xy : t := mk [test_0; build_x; build_y].

(** A new result for [(build, x)] whose artifact ["v"] holds a mapping. *)
Definition build_x_map : StepResult.t :=
  StepResult.add_artifact
    (StepResult.mk "build" (Some "x") "impl" true "" ∅) "v" "" "dict"
    (PDict {[ "major" := PStr "1" ]}).

(** File systems: an empty working directory; one where the regular file
    [work] stands where a directory would be needed; one with an empty
    snapshot, one with a snapshot that holds a pickled [dict], one with the
    snapshot of [store_xy] in a folder. *)
Definition fs_empty : node := Dir ∅.
Definition fs_work_is_file : node := Dir {[ "work" := File Garbage ]}.
Definition fs_out_is_file : node := Dir {[ "out" := File Empty ]}.
Definition fs_zero_length : node := Dir {[ "tssc.pkl" := File Empty ]}.
Definition fs_other_pickle : node :=
  Dir {[ "tssc.pkl" := File (Pickle (ObjValue (PDict ∅))) ]}.
Definition fs_written : node :=
  Dir {[ "tssc-results" :=
           Dir {[ "tssc-results.pkl" := File (Pickle (ObjWorkflowResult store_xy)) ]} ]}.

(** ** ArgoCD: the name of the application *)

(** The part of [tssc/step_implementers/deploy/argocd.py] that computes the
    name of the ArgoCD application, a Kubernetes label, from the
    configuration values. *)
Module ArgoCD.

(** A Python [str]: a sequence of Unicode code points. *)
Definition str := list N.

Definition of_string (s : string) : str := Ascii.N_of_ascii <$> String.list_ascii_of_string s.

(** [KUBE_LABEL_MAX_LENGTH], [KUBE_LABEL_REPLACEMENT_CHAR] *)
Definition KUBE_LABEL_MAX_LENGTH : nat := 52.
Definition KUBE_LABEL_REPLACEMENT_CHAR : N := 45%N.

(** The character class [a-zA-Z0-9]. *)
Definition alnum (c : N) : bool :=
  ((48 <=? c) && (c <=? 57) || (65 <=? c) && (c <=? 90) || (97 <=? c) && (c <=? 122))%N.

(** The character class [a-zA-Z0-9\-_\.], whose complement is
    [KUBE_LABEL_NOT_SAFE_CHARS_REGEX]. *)
Definition label_safe (c : N) : bool :=
  (alnum c || (c =? 45) || (c =? 95) || (c =? 46))%N.

(** [re.sub(KUBE_LABEL_NOT_SAFE_CHARS_REGEX, KUBE_LABEL_REPLACEMENT_CHAR, s)]:
    every character outside the class is replaced. *)
Definition replace_not_safe (s : str) : str :=
  (λ c, if label_safe c then c else KUBE_LABEL_REPLACEMENT_CHAR) <$> s.

(** [re.sub(KUBE_LABEL_NOT_SAFE_BEGINING_END_CHARS_REGEX, '', s)]: the
    pattern [^[^a-zA-Z0-9]*|[^a-zA-Z0-9]*$] matches the run of other
    characters at the start and the run of other characters at the end. *)
Fixpoint strip_begin (s : str) : str :=
  match s with
  | [] => []
  | c :: s' => if alnum c then s else strip_begin s'
  end.

Definition strip_not_alnum (s : str) : str :=
  reverse (strip_begin (reverse (strip_begin s))).

(** [_get_app_name()]: [organization], [application], [service] are the
    formatted values of [self.get_value(..)], [repo_branch] the result of
    [_get_repo_branch()], [environment] is [self.environment]; [lower] is
    [str.lower]. *)
Definition get_app_name (lower : str → str)
    (organization application service repo_branch : str) (environment : option str)
  : str :=
  let app_name :=
    organization ++ [45%N] ++ application ++ [45%N] ++ service ++ [45%N] ++ repo_branch in
  let app_name :=
    match environment with
    | Some (c :: e) => app_name ++ [45%N] ++ c :: e
    | _ => app_name
    end in
  let app_name := lower app_name in
  let app_name := replace_not_safe app_name in
  let app_name :=
    if decide (KUBE_LABEL_MAX_LENGTH < length app_name)
    then drop (length app_name - KUBE_LABEL_MAX_LENGTH) app_name
    else app_name in
  strip_not_alnum app_name.

(** [_get_endpoint_url()] *)
Definition get_endpoint_url (lower : str → str)
    (organization application service repo_branch : str) (environment : option str)
    (domain : str) : str :=
  let argocd_app_name :=
    get_app_name lower organization application service repo_branch environment in
  service ++ [46%N] ++ argocd_app_name ++ [46%N] ++ domain.

(** [str.lower] on ASCII text. *)
Definition ascii_lower (s : str) : str :=
  (λ c, if (65 <=? c)%N && (c <=? 90)%N then (c + 32)%N else c) <$> s.

End ArgoCD.

Import ArgoCD.

(** ** Definitions used to state and prove the further properties *)

(** The example of the docstring of [merge_results], and what the code
    returns on it. *)
Definition docstring_dict1 : gmap string pyval :=
  {[ "A" := PDict {[ "value" := PStr "A" ]};
     "C" := PDict {[ "value" := PStr "overwriteme" ]} ]}.
Definition docstring_dict2 : gmap string pyval :=
  {[ "B" := PDict {[ "value" := PStr "B" ]};
     "C" := PDict {[ "value" := PStr "C" ]} ]}.
Definition docstring_merged : gmap string pyval :=
  {[ "A" := PDict {[ "value" := PStr "A" ]};
     "B" := PDict {[ "value" := PStr "B" ]};
     "C" := PDict {[ "value" := PStr "overwriteme" ]} ]}.

(** The key under which an entry is rendered. *)
Definition sub_key (r : StepResult.t) : string := default "" (StepResult.sub_step_name r).

(** The keys of the rendered snapshot that lead to an entry. *)
Definition render_key (r : StepResult.t) : string * string :=
  (StepResult.step_name r, sub_key r).

(** The mapping that [get_step_result] builds for a step name. *)
Definition sub_step_results (l : list StepResult.t) (step_name : string)
  : gmap string pyval :=
  foldl (λ result step_result,
           if decide (StepResult.step_name step_result = step_name)
           then <[sub_key step_result
                  := PDict (StepResult.get_sub_step_result step_result)]> result
           else result)
        ∅ l.

(** The snapshot with every entry stored under its keys, later entries
    replacing earlier ones of the same keys. *)
Definition render_all (l : list StepResult.t) : gmap string pyval :=
  foldl (λ all_results r,
           <[StepResult.step_name r :=
               PDict (<[sub_key r := PDict (StepResult.get_sub_step_result r)]>
                        (match all_results !! StepResult.step_name r with
                         | Some (PDict sub_steps) => sub_steps
                         | _ => ∅
                         end))]> all_results)
        ∅ l.

(** More sample data: a store that cannot be rendered (two entries of the
    identity [(build, x)], a mapping against a string under one artifact), a
    file system with two snapshots before and after a write to the second,
    names for [get_app_name]. *)
Definition store_clash : t := mk [build_x_map; build_x].
Definition fs_two_files : node :=
  Dir {[ "a.pkl" := File (Pickle (ObjWorkflowResult store_xy)); "b.pkl" := File Empty ]}.
Definition fs_two_files_written : node :=
  Dir {[ "a.pkl" := File (Pickle (ObjWorkflowResult store_xy));
         "b.pkl" := File (Pickle (ObjWorkflowResult store_0xy)) ]}.
Definition acme : str := of_string "Acme".
Definition shop : str := of_string "shop".
Definition web : str := of_string "web".
Definition main_branch : str := of_string "main".
Definition lowered_name : str := of_string "acme-shop-web-main".

(** ** The deep merge *)

Lemma depth_lookup (d : gmap string pyval) k v :
  d !! k = Some v → (depth v < depth (PDict d))%nat.
Proof.
  cbn [depth]. intros Hk. apply Nat.lt_succ_r. revert k v Hk.
  apply (map_fold_weak_ind
           (λ (r : nat) (m : gmap string pyval),
              ∀ (k : string) v, m !! k = Some v → (depth v ≤ r)%nat)).
  - intros k v. by rewrite lookup_empty.
  - intros i x m r Hi IH k v. destruct (decide (i = k)) as [->|Hne].
    + rewrite lookup_insert_eq. intros [= ->]. lia.
    + rewrite lookup_insert_ne by done. intros Hk. specialize (IH _ _ Hk). lia.
Qed.

Lemma foldl_ext_in {A B} (f g : A → B → A) (l : list B) :
  (∀ x, x ∈ l → ∀ a, f a x = g a x) → ∀ a, foldl f a l = foldl g a l.
Proof.
  induction l as [|x l IH]; intros Hfg a; [done|]. cbn.
  rewrite Hfg by left. apply IH. intros y Hy. apply Hfg. by right.
Qed.

Lemma merge_results_aux_S n dict1 dict2 :
  merge_results_aux (S n) dict1 (PDict dict2)
  = collect (merge_entry (merge_results_aux n) dict1 dict2)
            (map_to_list (dict1 ∪ dict2)).
Proof.
  cbn [merge_results_aux]. unfold collect. apply foldl_ext_in.
  intros [k v] _ [output|e]; [|done]. unfold collect_step, merge_entry. cbn.
  destruct (dict1 !! k), (dict2 !! k); try done.
  destruct v as [a|d]; [done|]. by destruct (merge_results_aux n d _).
Qed.

Lemma collect_ext_in {V W} (f g : string → V → res W) l :
  (∀ k v, (k, v) ∈ l → f k v = g k v) → collect f l = collect g l.
Proof.
  intros Hfg. unfold collect. apply foldl_ext_in.
  intros [k v] Hin acc. unfold collect_step. cbn. by rewrite (Hfg _ _ Hin).
Qed.

(** Fuel beyond the depth of [dict1] changes nothing. *)
Lemma merge_results_aux_fuel n m dict1 dict2 :
  (depth (PDict dict1) ≤ n)%nat → (depth (PDict dict1) ≤ m)%nat →
  merge_results_aux n dict1 dict2 = merge_results_aux m dict1 dict2.
Proof.
  revert m dict1 dict2. induction n as [|n IH]; intros m dict1 dict2 Hn Hm.
  { cbn [depth] in Hn. lia. }
  destruct m as [|m]; [cbn [depth] in Hm; lia|].
  destruct dict2 as [a|dict2]; [done|].
  rewrite !merge_results_aux_S. apply collect_ext_in.
  intros k v Hkv%elem_of_map_to_list. unfold merge_entry.
  destruct (dict1 !! k) as [v1|] eqn:H1; [|done].
  destruct (dict2 !! k) as [v2|]; [|done].
  destruct v as [a|d]; [done|].
  assert (v1 = PDict d) as ->.
  { rewrite (lookup_union_Some_l _ _ _ _ H1) in Hkv. congruence. }
  apply depth_lookup in H1. rewrite (IH m); [done|lia..].
Qed.

(** The equation of the source's recursion, free of fuel. *)
Lemma merge_results_unfold dict1 dict2 :
  merge_results dict1 (PDict dict2)
  = collect (merge_entry merge_results dict1 dict2) (map_to_list (dict1 ∪ dict2)).
Proof.
  unfold merge_results at 1. cbn [depth]. rewrite merge_results_aux_S.
  apply collect_ext_in. intros k v Hkv%elem_of_map_to_list. unfold merge_entry.
  destruct (dict1 !! k) as [v1|] eqn:H1; [|done].
  destruct (dict2 !! k) as [v2|]; [|done].
  destruct v as [a|d]; [done|].
  assert (v1 = PDict d) as ->.
  { rewrite (lookup_union_Some_l _ _ _ _ H1) in Hkv. congruence. }
  apply depth_lookup in H1. cbn [depth] in H1.
  unfold merge_results. erewrite merge_results_aux_fuel; [done| |done].
  cbn [depth]. lia.
Qed.

Lemma merge_results_atom dict1 a : merge_results dict1 (PAtom a) = Raise TypeError.
Proof. done. Qed.

Section collect_facts.
Context {V W : Type} (body : string → V → res W).

Lemma collect_snoc l k v :
  collect body (l ++ [(k, v)])
  = output ← collect body l; r ← body k v; Ok (<[k := r]> output).
Proof. unfold collect. by rewrite foldl_snoc. Qed.

Lemma collect_Ok l m :
  NoDup l.*1 → collect body l = Ok m →
  (∀ k v, (k, v) ∈ l → ∃ r, body k v = Ok r ∧ m !! k = Some r)
  ∧ (∀ k, k ∉ l.*1 → m !! k = None).
Proof.
  revert m. induction l as [|[k0 v0] l IH] using rev_ind; intros m Hnd Hm.
  { injection Hm as <-. split; [by intros ?? ?%elem_of_nil|done]. }
  rewrite fmap_app in Hnd. apply NoDup_app in Hnd as (Hnd & Hk0 & _).
  rewrite collect_snoc in Hm.
  destruct (collect body l) as [output|] eqn:Hl; [|done].
  destruct (body k0 v0) as [r0|] eqn:Hb; [|done].
  cbn in Hm. injection Hm as <-.
  destruct (IH _ Hnd eq_refl) as [IH1 IH2]. split.
  - intros k v [Hin|Hin%list_elem_of_singleton]%elem_of_app.
    + destruct (IH1 _ _ Hin) as (r & Hr & Hlook). exists r. split; [done|].
      rewrite lookup_insert_ne; [done|]. intros <-.
      apply (Hk0 k0); [|cbn; left].
      apply list_elem_of_fmap. by exists (k0, v).
    + injection Hin as -> ->. exists r0. by rewrite lookup_insert_eq.
  - intros k Hk. rewrite fmap_app in Hk. cbn in Hk.
    rewrite lookup_insert_ne.
    + apply IH2. intros ?. apply Hk, elem_of_app. by left.
    + intros <-. apply Hk, elem_of_app. right. left.
Qed.

Lemma collect_Raise l e :
  collect body l = Raise e → ∃ k v, (k, v) ∈ l ∧ body k v = Raise e.
Proof.
  induction l as [|[k0 v0] l IH] using rev_ind; [done|].
  rewrite collect_snoc. destruct (collect body l) as [output|e'].
  - destruct (body k0 v0) as [r0|e'] eqn:Hb; [done|]. intros [= ->].
    exists k0, v0. split; [|done]. apply elem_of_app. right. left.
  - intros [= ->]. destruct (IH eq_refl) as (k & v & Hin & Hb).
    exists k, v. split; [|done]. apply elem_of_app. by left.
Qed.
End collect_facts.

(** What the merge returns, key by key. *)
Lemma merge_results_lookup dict1 dict2 m k :
  merge_results dict1 (PDict dict2) = Ok m →
  match dict1 !! k, dict2 !! k with
  | None, older => m !! k = older
  | Some newer, None => m !! k = Some newer
  | Some (PDict d), Some v =>
      ∃ merged, merge_results d v = Ok merged ∧ m !! k = Some (PDict merged)
  | Some (PAtom a), Some _ => m !! k = Some (PAtom a)
  end.
Proof.
  rewrite merge_results_unfold. intros Hm.
  apply collect_Ok in Hm as [Hin Hout]; [|apply NoDup_fst_map_to_list].
  destruct ((dict1 ∪ dict2) !! k) as [v|] eqn:Hu.
  - destruct (Hin k v) as (r & Hr & ->); [by apply elem_of_map_to_list|].
    unfold merge_entry in Hr.
    destruct (dict1 !! k) as [v1|] eqn:H1.
    + rewrite (lookup_union_Some_l _ _ _ _ H1) in Hu. injection Hu as ->.
      destruct v as [a|d], (dict2 !! k) as [v2|]; [congruence..| |congruence].
      destruct (merge_results d v2) as [merged|]; [|done].
      injection Hr as <-. by exists merged.
    + destruct (dict2 !! k); congruence.
  - pose proof Hu as [-> ->]%lookup_union_None. apply Hout.
    intros ((k' & v) & Hk' & Hkv%elem_of_map_to_list)%list_elem_of_fmap.
    cbn in Hk'. subst k'. congruence.
Qed.

(** The key set of the merge is the union of the two key sets. *)
Lemma merge_results_dom dict1 dict2 m :
  merge_results dict1 (PDict dict2) = Ok m → dom m = dom dict1 ∪ dom dict2.
Proof.
  intros Hm. apply set_eq. intros k.
  rewrite elem_of_union, !elem_of_dom.
  pose proof (merge_results_lookup _ _ _ k Hm) as Hk.
  destruct (dict1 !! k) as [[a|d]|], (dict2 !! k) as [v2|];
    try destruct Hk as (merged & _ & Hk); rewrite Hk; unfold is_Some;
    split; eauto; intros [[? ?]|[? ?]]; eauto; done.
Qed.

(** The merge raises exactly on a [clash], and then a [TypeError]. *)
Lemma merge_results_Raise dict1 dict2 e :
  merge_results dict1 dict2 = Raise e → e = TypeError ∧ clash dict1 dict2.
Proof.
  remember (depth (PDict dict1)) as n eqn:Hn.
  assert (depth (PDict dict1) ≤ n)%nat as Hle by lia. clear Hn.
  revert dict1 dict2 e Hle. induction n as [|n IH]; intros dict1 dict2 e Hle.
  { cbn [depth] in Hle. lia. }
  destruct dict2 as [a|dict2].
  { intros [= <-]. split; [done|constructor]. }
  rewrite merge_results_unfold.
  intros (k & v & Hkv%elem_of_map_to_list & Hb)%collect_Raise.
  unfold merge_entry in Hb.
  destruct (dict1 !! k) as [v1|] eqn:H1.
  - rewrite (lookup_union_Some_l _ _ _ _ H1) in Hkv. injection Hkv as ->.
    destruct (dict2 !! k) as [v2|] eqn:H2; [|done].
    destruct v as [a|d]; [done|].
    destruct (merge_results d v2) as [|e'] eqn:Hrec; [done|].
    injection Hb as ->. pose proof (depth_lookup _ _ _ H1) as Hlt.
    destruct (IH d v2 e) as [-> Hclash]; [lia|done|].
    split; [done|]. by eapply clash_below.
  - destruct (dict2 !! k) as [v2|] eqn:H2; [done|].
    rewrite (proj2 (lookup_union_None _ _ _) (conj H1 H2)) in Hkv. done.
Qed.

Lemma merge_results_clash dict1 dict2 :
  clash dict1 dict2 → merge_results dict1 dict2 = Raise TypeError.
Proof.
  induction 1 as [dict1 a|dict1 dict2 k d v H1 H2 _ IH]; [done|].
  destruct (merge_results dict1 (PDict dict2)) as [m|e] eqn:Hm.
  - pose proof (merge_results_lookup _ _ _ k Hm) as Hk.
    rewrite H1, H2 in Hk. destruct Hk as (merged & Hk & _). congruence.
  - by apply merge_results_Raise in Hm as [-> _].
Qed.



(** [artifacts.update(merged)] leaves exactly [merged]. *)
Lemma merge_results_update dict1 dict2 merged :
  merge_results dict1 (PDict dict2) = Ok merged → merged ∪ dict1 = merged.
Proof.
  intros Hm. apply map_eq. intros k.
  destruct (merged !! k) as [v|] eqn:Hk.
  - by rewrite (lookup_union_Some_l _ _ _ _ Hk).
  - apply lookup_union_None. split; [done|].
    apply not_elem_of_dom. apply not_elem_of_dom in Hk.
    rewrite (merge_results_dom _ _ _ Hm) in Hk. set_solver.
Qed.

Lemma artifact_fields description type value k :
  ({[ "description" := PStr description; "type" := PStr type; "value" := value ]}
     : gmap string pyval) !! k
  = if decide (k = "description") then Some (PStr description)
    else if decide (k = "type") then Some (PStr type)
    else if decide (k = "value") then Some value
    else None.
Proof.
  repeat case_decide; subst;
    repeat first [rewrite lookup_insert_eq | rewrite lookup_insert_ne by done
                 | rewrite lookup_singleton_eq | rewrite lookup_singleton_ne by done];
    done.
Qed.

(** Two rendered artifacts merge into a rendered artifact: description and
    type of the newer one, and a value that is not [None]. *)
Lemma merge_results_artifact d1 t1 v1 d2 t2 v2 fields1 m :
  StepResult.artifact d1 t1 v1 = PDict fields1 → is_None v1 = false →
  merge_results fields1 (StepResult.artifact d2 t2 v2) = Ok m →
  ∃ v, PDict m = StepResult.artifact d1 t1 v ∧ is_None v = false.
Proof.
  unfold StepResult.artifact. 
  intros Heq Hv1 Hm.
  injection Heq as Heq.
  subst fields1.
  assert (∃ v, m !! "value" = Some v ∧ is_None v = false) as (v & Hv & Hnone).
  { pose proof (merge_results_lookup _ _ _ "value" Hm) as Hk.
    rewrite !artifact_fields in Hk.
    rewrite !(decide_False (P := "value" = "description")) in Hk by done.
    rewrite !(decide_False (P := "value" = "type")) in Hk by done.
    rewrite !(decide_True (P := "value" = "value")) in Hk by done.
    destruct v1 as [a|d]; [exists (PAtom a); split; [exact Hk|exact Hv1]|].
    destruct Hk as (merged & _ & Hk). exists (PDict merged). split; [exact Hk|reflexivity]. }
  exists v. split; [|exact Hnone]. f_equal. apply map_eq. intros k.
  pose proof (merge_results_lookup _ _ _ k Hm) as Hk.
  rewrite !artifact_fields in Hk. rewrite artifact_fields.
  repeat case_decide; subst; try exact Hk; congruence.
Qed.

(** C1.  With a mapping on the newer side and a string on the older side of
    one key, the merge raises [TypeError] instead of keeping the newer value;
    so does the upsert that merges such artifacts.  The other way round the
    newer value is kept. *)
Theorem merge_results_mapping_over_atom :
  merge_results {[ "k" := PDict ∅ ]} (PDict {[ "k" := PStr "v" ]}) = Raise TypeError
  ∧ merge_results {[ "k" := PStr "v" ]} (PDict {[ "k" := PDict ∅ ]})
    = Ok {[ "k" := PStr "v" ]}
  ∧ add_step_result (mk [build_x]) (ObjStepResult build_x_map) = Raise TypeError.
Proof. split; [|split]; vm_compute; reflexivity. Qed.

(** C2.  The merge is not total: it raises on two mapping trees that hold a
    mapping and a number under the same path of keys. *)
Theorem merge_results_not_total :
  merge_results {[ "a" := PDict {[ "b" := PDict {[ "c" := PAtom (AInt 1) ]} ]} ]}
                (PDict {[ "a" := PDict {[ "b" := PAtom (AInt 2) ]} ]})
  = Raise TypeError
  ∧ ¬ (∀ newer older, is_Ok (merge_results newer (PDict older))).
Proof.
  assert (merge_results
            {[ "a" := PDict {[ "b" := PDict {[ "c" := PAtom (AInt 1) ]} ]} ]}
            (PDict {[ "a" := PDict {[ "b" := PAtom (AInt 2) ]} ]})
          = Raise TypeError) as H by (vm_compute; reflexivity).
  split; [done|]. intros Htotal.
  destruct (Htotal {[ "a" := PDict {[ "b" := PDict {[ "c" := PAtom (AInt 1) ]} ]} ]}
                   {[ "a" := PDict {[ "b" := PAtom (AInt 2) ]} ]}) as [m Hm].
  congruence.
Qed.

(** ** Queries *)

Lemma is_None_true v : is_None v = true ↔ v = PNone.
Proof. split; [|by intros ->]. by destruct v as [[]|]. Qed.

(** On an entry of the spec's shape, having an artifact of a name and
    yielding a value for it are the same. *)
Lemma well_formed_has_artifact r name :
  StepResult.well_formed r →
  is_Some (StepResult.artifacts r !! name)
  ↔ is_None (StepResult.get_artifact_value r name) = false.
Proof.
  intros Hwf. unfold StepResult.get_artifact_value. split.
  - intros [a Ha]. rewrite Ha.
    destruct (Hwf _ _ Ha) as (description & type & value & -> & Hv).
    unfold StepResult.artifact.
    by rewrite !lookup_insert_ne, lookup_singleton_eq.
  - destruct (StepResult.artifacts r !! name); [by eexists|done].
Qed.

Lemma scan_step_sub_step_first artifact step_name sub_step_name value before entry after :
  StepResult.identity entry = (step_name, Some sub_step_name) →
  (∀ other, other ∈ before →
     StepResult.identity other ≠ (step_name, Some sub_step_name)) →
  scan_step_sub_step artifact step_name sub_step_name value (before ++ entry :: after)
  = StepResult.get_artifact_value entry artifact.
Proof.
  intros [= Hs Hss] Hbefore.
  induction before as [|r before IH]; cbn.
  - by rewrite !decide_True.
  - assert (StepResult.identity r ≠ (step_name, Some sub_step_name)) as Hr
      by (apply Hbefore; left).
    unfold StepResult.identity in Hr.
    rewrite IH by (intros ??; apply Hbefore; by right).
    repeat case_decide; congruence.
Qed.

Lemma scan_step_sub_step_none artifact step_name sub_step_name value l :
  (∀ other, other ∈ l →
     StepResult.identity other ≠ (step_name, Some sub_step_name)) →
  scan_step_sub_step artifact step_name sub_step_name value l = value.
Proof.
  intros Hl. induction l as [|r l IH]; [done|]. cbn.
  assert (StepResult.identity r ≠ (step_name, Some sub_step_name)) as Hr
    by (apply Hl; left).
  unfold StepResult.identity in Hr.
  rewrite IH by (intros ??; apply Hl; by right).
  repeat case_decide; congruence.
Qed.

Lemma scan_step_first artifact step_name value before entry after :
  StepResult.step_name entry = step_name → yields entry artifact →
  (∀ other, other ∈ before →
     ¬ (StepResult.step_name other = step_name ∧ yields other artifact)) →
  scan_step artifact step_name value (before ++ entry :: after)
  = StepResult.get_artifact_value entry artifact.
Proof.
  unfold yields. intros Hs Hv Hbefore. revert value.
  induction before as [|r before IH]; intros value; cbn.
  - by rewrite decide_True, Hv.
  - assert (¬ (StepResult.step_name r = step_name
               ∧ is_None (StepResult.get_artifact_value r artifact) = false)) as Hr
      by (apply Hbefore; left).
    assert (∀ value, scan_step artifact step_name value (before ++ entry :: after)
                     = StepResult.get_artifact_value entry artifact) as IH'
      by (intros ?; apply IH; intros ??; apply Hbefore; by right).
    case_decide; [|by apply IH'].
    destruct (is_None (StepResult.get_artifact_value r artifact)) eqn:Hn; cbn;
      [by apply IH'|].
    by destruct Hr.
Qed.

Lemma scan_step_none artifact step_name value l :
  value = PNone →
  (∀ other, other ∈ l →
     ¬ (StepResult.step_name other = step_name ∧ yields other artifact)) →
  scan_step artifact step_name value l = PNone.
Proof.
  unfold yields. intros Hv Hl. revert value Hv.
  induction l as [|r l IH]; intros value Hv; [done|]. cbn.
  assert (∀ value, value = PNone → scan_step artifact step_name value l = PNone) as IH'
    by (intros ??; apply IH; [intros ??; apply Hl; by right|done]).
  case_decide as Hs; [|by apply IH'].
  destruct (is_None (StepResult.get_artifact_value r artifact)) eqn:Hn; cbn.
  - by apply IH', is_None_true.
  - destruct (Hl r); [left|done].
Qed.

Lemma scan_all_first artifact value before entry after :
  yields entry artifact →
  (∀ other, other ∈ before → ¬ yields other artifact) →
  scan_all artifact value (before ++ entry :: after)
  = StepResult.get_artifact_value entry artifact.
Proof.
  unfold yields. intros Hv Hbefore. revert value.
  induction before as [|r before IH]; intros value; cbn.
  - by rewrite Hv.
  - destruct (is_None (StepResult.get_artifact_value r artifact)) eqn:Hn; cbn.
    + apply IH. intros ??. apply Hbefore. by right.
    + destruct (Hbefore r); [left|done].
Qed.

Lemma scan_all_none artifact value l :
  value = PNone →
  (∀ other, other ∈ l → ¬ yields other artifact) →
  scan_all artifact value l = PNone.
Proof.
  unfold yields. intros Hv Hl. revert value Hv.
  induction l as [|r l IH]; intros value Hv; [done|]. cbn.
  destruct (is_None (StepResult.get_artifact_value r artifact)) eqn:Hn; cbn.
  - apply IH; [intros ??; apply Hl; by right|by apply is_None_true].
  - destruct (Hl r); [left|done].
Qed.

(** C5.  A query with both [step_name] and [sub_step_name] given returns the
    value of the artifact of that name from the entry with that identity (the
    first one in store order, which is the only one when identities are
    unique); it returns [None] when that entry has no artifact of that name,
    and [None] when no entry has that identity, whatever the other entries
    hold. *)
Theorem get_artifact_value_step_sub_step (self : t) artifact step_name sub_step_name :
  (∀ before entry after,
     workflow_list self = before ++ entry :: after →
     StepResult.identity entry = (step_name, Some sub_step_name) →
     Forall (λ other, StepResult.identity other ≠ (step_name, Some sub_step_name))
            before →
     get_artifact_value self artifact (Some step_name) (Some sub_step_name)
     = StepResult.get_artifact_value entry artifact
     ∧ (∀ description type value,
          StepResult.artifacts entry !! artifact
          = Some (StepResult.artifact description type value) →
          get_artifact_value self artifact (Some step_name) (Some sub_step_name)
          = value)
     ∧ (¬ has_artifact entry artifact →
          get_artifact_value self artifact (Some step_name) (Some sub_step_name)
          = PNone))
  ∧ (Forall (λ other, StepResult.identity other ≠ (step_name, Some sub_step_name))
            (workflow_list self) →
     get_artifact_value self artifact (Some step_name) (Some sub_step_name) = PNone).
Proof.
  unfold get_artifact_value. split.
  - intros before entry after -> Hid Hbefore.
    rewrite scan_step_sub_step_first; [|done|by apply Forall_forall].
    split; [done|]. unfold StepResult.get_artifact_value, has_artifact. split.
    + intros description type value ->. unfold StepResult.artifact.
      by rewrite !lookup_insert_ne, lookup_singleton_eq.
    + intros Hno. destruct (StepResult.artifacts entry !! artifact); [|done].
      destruct Hno. by eexists.
  - intros Hall. apply scan_step_sub_step_none. by apply Forall_forall.
Qed.

(** The store [(build, x); (build, y)]: the scoped query for [(build, y)]
    gives the value of that entry, the one for [(build, z)] gives [None]. *)
Lemma get_artifact_value_step_sub_step_witness :
  get_artifact_value store_xy "v" (Some "build") (Some "y") = PStr "2"
  ∧ get_artifact_value store_xy "v" (Some "build") (Some "z") = PNone.
Proof.
  split.
  - destruct (get_artifact_value_step_sub_step store_xy "v" "build" "y") as [H _].
    destruct (H [build_x] build_y []) as (_ & Hv & _).
    + reflexivity.
    + reflexivity.
    + repeat constructor. vm_compute. discriminate.
    + apply (Hv "" "str"). reflexivity.
  - destruct (get_artifact_value_step_sub_step store_xy "v" "build" "z") as [_ H].
    apply H. repeat constructor; vm_compute; discriminate.
Defined.

(** C6.  On a store whose entries have the spec's shape: a query with only
    [step_name] given returns the artifact value of the first entry in store
    order whose step name matches and which has an artifact of that name; a
    query without scope returns the artifact value of the first entry in store
    order that has one; both return [None] when no entry qualifies. *)
Theorem get_artifact_value_first_match (self : t) artifact :
  Forall StepResult.well_formed (workflow_list self) →
  (∀ step_name,
     (∀ before entry after,
        workflow_list self = before ++ entry :: after →
        StepResult.step_name entry = step_name → has_artifact entry artifact →
        Forall (λ other, ¬ (StepResult.step_name other = step_name
                            ∧ has_artifact other artifact)) before →
        get_artifact_value self artifact (Some step_name) None
        = StepResult.get_artifact_value entry artifact
        ∧ get_artifact_value self artifact (Some step_name) None ≠ PNone)
     ∧ (Forall (λ other, ¬ (StepResult.step_name other = step_name
                            ∧ has_artifact other artifact)) (workflow_list self) →
        get_artifact_value self artifact (Some step_name) None = PNone))
  ∧ (∀ sub_step_name,
       (∀ before entry after,
          workflow_list self = before ++ entry :: after →
          has_artifact entry artifact →
          Forall (λ other, ¬ has_artifact other artifact) before →
          get_artifact_value self artifact None sub_step_name
          = StepResult.get_artifact_value entry artifact
          ∧ get_artifact_value self artifact None sub_step_name ≠ PNone)
       ∧ (Forall (λ other, ¬ has_artifact other artifact) (workflow_list self) →
          get_artifact_value self artifact None sub_step_name = PNone)).
Proof.
  intros Hwf.
  assert (∀ r, r ∈ workflow_list self → has_artifact r artifact ↔ yields r artifact)
    as Hyields.
  { intros r Hr. apply well_formed_has_artifact. by eapply Forall_forall in Hwf. }
  unfold get_artifact_value. split; [intros step_name|intros _]; split.
  - intros before entry after Hl Hs Hhas Hbefore. rewrite Hl in *.
    assert (yields entry artifact) as Hy
      by (apply Hyields; [apply elem_of_app; right; left|done]).
    rewrite scan_step_first; [|done..|].
    + split; [done|]. intros Hn. unfold yields in Hy. by rewrite Hn in Hy.
    + intros other Hin [Ho Hyo]. eapply Forall_forall in Hbefore; [|done].
      apply Hbefore. split; [done|]. apply Hyields; [|done].
      apply elem_of_app. by left.
  - intros Hall. apply scan_step_none; [done|].
    intros other Hin [Ho Hyo]. eapply Forall_forall in Hall; [|done].
    apply Hall. split; [done|]. by apply Hyields.
  - intros before entry after Hl Hhas Hbefore. rewrite Hl in *.
    assert (yields entry artifact) as Hy
      by (apply Hyields; [apply elem_of_app; right; left|done]).
    rewrite scan_all_first; [|done|].
    + split; [done|]. intros Hn. unfold yields in Hy. by rewrite Hn in Hy.
    + intros other Hin Hyo. eapply Forall_forall in Hbefore; [|done].
      apply Hbefore. apply Hyields; [|done]. apply elem_of_app. by left.
  - intros Hall. apply scan_all_none; [done|].
    intros other Hin Hyo. eapply Forall_forall in Hall; [|done].
    apply Hall. by apply Hyields.
Qed.

Lemma well_formed_entry_v step sub value : StepResult.well_formed (entry_v step sub value).
Proof.
  intros name a. unfold entry_v, StepResult.add_artifact. cbn.
  intros [[_ <-]|[_ ?]]%lookup_insert_Some; [|done].
  by exists "", "str", (PStr value).
Qed.

Lemma well_formed_entry_0 step sub : StepResult.well_formed (entry_0 step sub).
Proof. by intros name a. Qed.

(** The store [(test, unit); (build, x); (build, y)], where the first entry
    has no artifact. *)
Lemma get_artifact_value_first_match_witness :
  get_artifact_value store_0xy "v" (Some "build") None = PStr "1"
  ∧ get_artifact_value store_0xy "v" (Some "deploy") None = PNone
  ∧ get_artifact_value store_0xy "v" None None = PStr "1"
  ∧ get_artifact_value store_0xy "w" None None = PNone.
Proof.
  assert (Forall StepResult.well_formed (workflow_list store_0xy)) as Hwf.
  { repeat constructor;
      [apply well_formed_entry_0|apply well_formed_entry_v|apply well_formed_entry_v]. }
  split; [|split; [|split]].
  - destruct (get_artifact_value_first_match store_0xy "v" Hwf) as [H _].
    destruct (H "build") as [H1 _].
    destruct (H1 [test_0] build_x [build_y]) as [-> _]; try reflexivity.
    + by eexists.
    + repeat constructor. intros [? _]. done.
  - destruct (get_artifact_value_first_match store_0xy "v" Hwf) as [H _].
    destruct (H "deploy") as [_ H2]. apply H2.
    repeat constructor; intros [? _]; done.
  - destruct (get_artifact_value_first_match store_0xy "v" Hwf) as [_ H].
    destruct (H None) as [H1 _].
    destruct (H1 [test_0] build_x [build_y]) as [-> _]; try reflexivity.
    + by eexists.
    + repeat constructor. intros [? ?]. done.
  - destruct (get_artifact_value_first_match store_0xy "w" Hwf) as [_ H].
    destruct (H None) as [_ H2]. apply H2.
    repeat constructor; intros [? ?]; done.
Defined.

(** ** Upsert *)

Lemma delete_loop_past rounds i step_name (l : list StepResult.t) :
  (length l ≤ i)%nat → delete_loop rounds i step_name l = l.
Proof.
  intros Hi. destruct rounds as [|rounds]; [done|]. cbn.
  by rewrite lookup_ge_None_2.
Qed.

Lemma delete_loop_scan rounds step_name (done_ todo : list StepResult.t) :
  (length todo ≤ rounds)%nat →
  delete_loop rounds (length done_) step_name (done_ ++ todo)
  = done_ ++ delete_scan step_name todo.
Proof.
  revert done_ todo. induction rounds as [|rounds IH]; intros done_ todo Hlen.
  { by destruct todo; [|cbn in Hlen; lia]. }
  destruct todo as [|current rest].
  { apply delete_loop_past. rewrite length_app. cbn. lia. }
  cbn [delete_loop delete_scan]. cbn in Hlen.
  rewrite list_lookup_middle by done.
  assert (∀ x (l : list StepResult.t), (length l ≤ rounds)%nat →
            delete_loop rounds (S (length done_)) step_name (done_ ++ x :: l)
            = done_ ++ x :: delete_scan step_name l) as IH'.
  { intros x l Hl. rewrite (cons_middle x done_ l), app_assoc.
    replace (S (length done_)) with (length (done_ ++ [x]))
      by (rewrite length_app; cbn; lia).
    rewrite IH by done. by rewrite <-app_assoc. }
  case_decide.
  - rewrite delete_middle. destruct rest as [|skipped rest'].
    + apply delete_loop_past. rewrite length_app. cbn. lia.
    + apply IH'. cbn in Hlen. lia.
  - apply IH'. lia.
Qed.

Lemma delete_step_result_by_name_scan self step_name :
  delete_step_result_by_name self step_name
  = mk (delete_scan step_name (workflow_list self)).
Proof.
  unfold delete_step_result_by_name. f_equal.
  by apply (delete_loop_scan _ _ []).
Qed.

(** An entry of a new identity is appended. *)
Lemma add_step_result_new self r :
  Forall (λ other, StepResult.identity other ≠ StepResult.identity r)
         (workflow_list self) →
  add_step_result self (ObjStepResult r) = Ok (mk (workflow_list self ++ [r])).
Proof.
  intros Hnew. unfold add_step_result, get_step_result_by_step_name.
  replace (get_step_result_by_step_name_in _ _ _) with (@None StepResult.t); [done|].
  induction Hnew as [|other l Hother _ IH]; [done|]. cbn.
  unfold StepResult.identity in Hother.
  repeat case_decide; congruence.
Qed.

Lemma get_step_result_by_step_name_in_Some l step_name sub_step_name old :
  get_step_result_by_step_name_in l step_name sub_step_name = Some old →
  old ∈ l ∧ StepResult.identity old = (step_name, sub_step_name).
Proof.
  induction l as [|current l IH]; [done|]. cbn.
  repeat case_decide.
  - intros [= <-]. split; [left|]. unfold StepResult.identity. congruence.
  - intros [? ?]%IH. split; [by right|done].
  - intros [? ?]%IH. split; [by right|done].
Qed.

Lemma get_step_result_by_step_name_in_None l step_name sub_step_name :
  get_step_result_by_step_name_in l step_name sub_step_name = None →
  Forall (λ other, StepResult.identity other ≠ (step_name, sub_step_name)) l.
Proof.
  induction l as [|current l IH]; [done|]. cbn. unfold StepResult.identity.
  repeat case_decide; try done; intros ?%IH; constructor; try done; congruence.
Qed.

Lemma delete_scan_none step_name l :
  Forall (λ other, StepResult.step_name other ≠ step_name) l →
  delete_scan step_name l = l.
Proof.
  induction 1 as [|current l Hc _ IH]; [done|]. cbn.
  rewrite decide_False by done. by rewrite IH.
Qed.

Lemma filter_all {A} (P : A → Prop) `{∀ x, Decision (P x)} (l : list A) :
  Forall P l → filter P l = l.
Proof.
  induction 1 as [|x l ? ? IH]; [done|].
  rewrite filter_cons_True by done. by rewrite IH.
Qed.

Lemma delete_scan_single r l :
  single_sub_step r l → NoDup (StepResult.identity <$> l) →
  delete_scan (StepResult.step_name r) l
  = filter (λ other, StepResult.identity other ≠ StepResult.identity r) l.
Proof.
  induction 1 as [|current l Hc Hl IH]; [done|].
  rewrite fmap_cons. intros [Hnotin Hnd]%NoDup_cons. cbn [delete_scan].
  case_decide as Hs.
  - specialize (Hc Hs). rewrite filter_cons_False by (by intros ?).
    assert (Forall (λ other, StepResult.identity other ≠ StepResult.identity r) l)
      as Hother.
    { apply Forall_forall. intros other Hin Hid. apply Hnotin.
      rewrite Hc, <-Hid. by apply list_elem_of_fmap_2. }
    rewrite filter_all by done.
    assert (Forall (λ other, StepResult.step_name other ≠ StepResult.step_name r) l)
      as Hnone.
    { apply Forall_forall. intros other Hin Hso.
      eapply Forall_forall in Hl; [|done]. eapply Forall_forall in Hother; [|done].
      by apply Hother, Hl. }
    destruct Hnone as [|skipped rest' _ Hrest]; [done|].
    by rewrite delete_scan_none.
  - rewrite filter_cons_True by (unfold StepResult.identity; congruence).
    by rewrite IH.
Qed.

(** On a store with unique identities where the stage of [r] has a single sub
    step, the upsert of [r] removes the prior entry of that identity, keeps
    the others in their order, appends [r] with the merged artifacts, and
    identities stay unique. *)
Lemma add_step_result_single_sub_step self r self' :
  unique_identities self → single_sub_step r (workflow_list self) →
  add_step_result self (ObjStepResult r) = Ok self' →
  ∃ r',
    workflow_list self'
    = filter (λ other, StepResult.identity other ≠ StepResult.identity r)
             (workflow_list self) ++ [r']
    ∧ (r' = r
       ∨ ∃ old merged,
           old ∈ workflow_list self
           ∧ StepResult.identity old = StepResult.identity r
           ∧ merge_results (StepResult.artifacts r) (PDict (StepResult.artifacts old))
             = Ok merged
           ∧ r' = StepResult.set_artifacts r merged)
    ∧ unique_identities self'.
Proof.
  unfold unique_identities. intros Hnd Hsingle Hadd.
  assert (∀ r', StepResult.identity r' = StepResult.identity r →
            NoDup (StepResult.identity <$>
                     filter (λ other, StepResult.identity other ≠ StepResult.identity r)
                            (workflow_list self) ++ [r'])) as Hnd'.
  { intros r' Hr'. rewrite fmap_app. apply NoDup_app. split; [|split].
    - eapply sublist_NoDup; [done|]. apply fmap_sublist, sublist_filter.
    - intros x (other & -> & Hin)%list_elem_of_fmap Hx%list_elem_of_singleton.
      apply list_elem_of_filter in Hin as [Ho _]. by rewrite Hr' in Hx.
    - apply NoDup_singleton. }
  unfold add_step_result, get_step_result_by_step_name in Hadd.
  destruct (get_step_result_by_step_name_in _ _ _) as [old|] eqn:Hold.
  - destruct (merge_results _ _) as [merged|] eqn:Hm; [|done].
    rewrite delete_step_result_by_name_scan in Hadd.
    cbn in Hadd. injection Hadd as <-. cbn.
    rewrite delete_scan_single by done.
    apply get_step_result_by_step_name_in_Some in Hold as [Hin Hid].
    rewrite (merge_results_update _ _ _ Hm).
    eexists. split; [done|]. split; [|by apply Hnd'].
    right. by exists old, merged.
  - injection Hadd as <-. cbn.
    apply get_step_result_by_step_name_in_None in Hold.
    rewrite filter_all by done. exists r. split; [done|]. split; [by left|].
    specialize (Hnd' r eq_refl). by rewrite filter_all in Hnd'.
Qed.

Lemma delete_scan_sublist step_name l : delete_scan step_name l `sublist_of` l.
Proof.
  enough (delete_scan step_name l `sublist_of` l
          ∧ ∀ x, delete_scan step_name (x :: l) `sublist_of` x :: l) as [? _]
    by assumption.
  induction l as [|y l [IH1 IH2]].
  - split; [constructor|]. intros x. cbn. case_decide; [apply sublist_nil_l|].
    apply sublist_skip. constructor.
  - split; [apply IH2|]. intros x. cbn [delete_scan]. case_decide.
    + apply sublist_cons, sublist_skip, IH1.
    + apply sublist_skip, IH2.
Qed.

(** The spec's shape of the entries is an invariant of the upsert. *)
Lemma add_step_result_well_formed self r self' :
  Forall StepResult.well_formed (workflow_list self) → StepResult.well_formed r →
  add_step_result self (ObjStepResult r) = Ok self' →
  Forall StepResult.well_formed (workflow_list self').
Proof.
  intros Hwf Hr. unfold add_step_result, get_step_result_by_step_name.
  destruct (get_step_result_by_step_name_in _ _ _) as [old|] eqn:Hold.
  - destruct (merge_results _ _) as [merged|] eqn:Hm; [|done].
    rewrite delete_step_result_by_name_scan. cbn [mbind res_bind workflow_list].
    rewrite (merge_results_update _ _ _ Hm).
    intros [= <-]. cbn [workflow_list]. apply Forall_app. split.
    + apply Forall_forall. intros other Hin.
      eapply Forall_forall in Hwf; [exact Hwf|].
      eapply sublist_subseteq; [apply delete_scan_sublist|exact Hin].
    + apply Forall_singleton.
      apply get_step_result_by_step_name_in_Some in Hold as [Hin _].
      eapply Forall_forall in Hwf; [|exact Hin].
      intros name a Ha. change (merged !! name = Some a) in Ha.
      pose proof (merge_results_lookup _ _ _ name Hm) as Hk. rewrite Ha in Hk.
      destruct (StepResult.artifacts r !! name) as [a1|] eqn:H1.
      * destruct (Hr _ _ H1) as (d1 & t1 & v1 & Ha1 & Hv1).
        destruct a1 as [?|fields1]; [discriminate Ha1|].
        destruct (StepResult.artifacts old !! name) as [a2|] eqn:H2.
        -- destruct (Hwf _ _ H2) as (d2 & t2 & v2 & -> & Hv2).
           destruct Hk as (m & Hmm & Hk). injection Hk as ->.
           destruct (merge_results_artifact d1 t1 v1 d2 t2 v2 _ m
                       (eq_sym Ha1) Hv1 Hmm) as (v & Hv & Hnone).
           exists d1, t1, v. split; [exact Hv|exact Hnone].
        -- injection Hk as ->. exists d1, t1, v1. split; [exact Ha1|exact Hv1].
      * apply (Hwf name). destruct (StepResult.artifacts old !! name);
          [congruence|discriminate Hk].
  - intros [= <-]. cbn [workflow_list]. apply Forall_app.
    split; [exact Hwf|apply Forall_singleton; exact Hr].
Qed.

(** C3.  Three upserts on the empty store, [(build, y)], [(build, x)] and
    [(build, x)] again, leave two entries of the identity [(build, x)]. *)
Theorem add_step_result_twice_same_identity :
  add_step_results new [build_y; build_x; build_x] = Ok (mk [build_x; build_x])
  ∧ ¬ unique_identities (mk [build_x; build_x]).
Proof.
  split; [vm_compute; reflexivity|].
  unfold unique_identities. cbn. intros [Hnotin _]%NoDup_cons.
  apply Hnotin. left.
Qed.

(** C4.  On the store [(build, x); (test, unit); (build, y)] the upsert of a
    new [(build, x)] removes the entry [(build, y)] as well. *)
Theorem add_step_result_removes_other_sub_step :
  add_step_results new [build_x; test_0; build_y] = Ok (mk [build_x; test_0; build_y])
  ∧ add_step_result (mk [build_x; test_0; build_y]) (ObjStepResult build_x3)
    = Ok (mk [test_0; build_x3])
  ∧ StepResult.identity build_y ≠ StepResult.identity build_x3
  ∧ build_y ∉ [test_0; build_x3].
Proof.
  split; [vm_compute; reflexivity|]. split; [vm_compute; reflexivity|]. split; [done|].
  intros [?|[?|?%elem_of_nil]%elem_of_cons]%elem_of_cons; done.
Qed.

(** C9.  On the store [(build, y)], upserting [(build, x)] twice renders
    another snapshot than upserting it once: the second upsert removes
    [(build, y)], which the snapshot after one upsert shows and the snapshot
    after two does not. *)
Theorem add_step_result_twice_differs :
  add_step_results new [build_y] = Ok (mk [build_y])
  ∧ add_step_result (mk [build_y]) (ObjStepResult build_x)
    = Ok (mk [build_y; build_x])
  ∧ add_step_result (mk [build_y; build_x]) (ObjStepResult build_x)
    = Ok (mk [build_x; build_x])
  ∧ renders (get_all_step_results (mk [build_y; build_x])) "build" "y" = true
  ∧ renders (get_all_step_results (mk [build_x; build_x])) "build" "y" = false
  ∧ get_all_step_results (mk [build_x; build_x])
    ≠ get_all_step_results (mk [build_y; build_x]).
Proof.
  assert (renders (get_all_step_results (mk [build_y; build_x])) "build" "y" = true)
    as Honce by (vm_compute; reflexivity).
  assert (renders (get_all_step_results (mk [build_x; build_x])) "build" "y" = false)
    as Htwice by (vm_compute; reflexivity).
  split; [vm_compute; reflexivity|]. split; [vm_compute; reflexivity|].
  split; [vm_compute; reflexivity|]. split; [exact Honce|]. split; [exact Htwice|].
  intros Heq. rewrite Heq, Honce in Htwice. discriminate Htwice.
Qed.

(** ** The pickle file *)

Lemma dirname_snoc (p : list string) c : dirname (p ++ [c]) = p.
Proof. unfold dirname. by rewrite removelast_last. Qed.

Lemma dirname_last (p : list string) : p ≠ [] → ∃ c, p = dirname p ++ [c].
Proof.
  intros Hp. destruct (exists_last Hp) as (q & c & ->).
  exists c. by rewrite dirname_snoc.
Qed.

Lemma walk_app fs p q : walk fs (p ++ q) = walk fs p ≫= λ n, walk n q.
Proof.
  revert fs. induction p as [|c p IH]; intros fs; [done|]. cbn.
  destruct fs as [?|entries]; [done|].
  destruct (entries !! c) as [child|]; [apply IH|done].
Qed.

(** Whatever exists lies in a directory. *)
Lemma walk_parent fs p c n :
  walk fs (p ++ [c]) = Some n → ∃ entries, walk fs p = Some (Dir entries).
Proof.
  rewrite walk_app. destruct (walk fs p) as [[?|entries]|]; [done| |done].
  by exists entries.
Qed.

Lemma folder_create_exists fs p :
  is_Some (walk fs p) → folder_create fs p = Ok fs.
Proof.
  intros [n Hn]. unfold folder_create.
  destruct (decide (p = [])) as [->|Hp]; [done|].
  destruct (dirname_last p Hp) as [c Hc]. rewrite Hc in Hn.
  apply walk_parent in Hn as [entries Hd].
  unfold exists_. rewrite Hd. by rewrite andb_false_r.
Qed.

Lemma walk_fresh_dirs p c : walk (fresh_dirs p) (p ++ [c]) = None.
Proof.
  induction p as [|d p IH]; cbn; [done|]. by rewrite lookup_singleton_eq.
Qed.

Lemma isdir_fresh_dirs p : isdir (fresh_dirs p) p = true.
Proof.
  unfold isdir. induction p as [|d p IH]; cbn; [done|].
  by rewrite lookup_singleton_eq.
Qed.

(** After [makedirs] the directory is there, and it is empty when it was not
    there before. *)
Lemma makedirs_isdir fs p fs' : makedirs fs p = Ok fs' → isdir fs' p = true.
Proof.
  unfold isdir. revert fs fs'. induction p as [|c p IH]; intros fs fs'.
  { by destruct fs. }
  destruct fs as [?|entries]; [done|]. cbn.
  destruct (entries !! c) as [child|] eqn:Hc.
  - destruct (makedirs child p) as [child'|] eqn:Hm; [|done]. intros [= <-].
    cbn. rewrite lookup_insert_eq. cbn. by eapply IH.
  - intros [= <-]. cbn. rewrite lookup_insert_eq. cbn. apply isdir_fresh_dirs.
Qed.

Lemma makedirs_fresh fs p fs' c :
  exists_ fs p = false → makedirs fs p = Ok fs' → walk fs' (p ++ [c]) = None.
Proof.
  unfold exists_. revert fs fs'. induction p as [|d p IH]; intros fs fs'.
  { by destruct fs. }
  destruct fs as [?|entries]; [done|]. cbn.
  destruct (entries !! d) as [child|] eqn:Hd; cbn.
  - intros Hex. destruct (makedirs child p) as [child'|] eqn:Hm; [|done].
    intros [= <-]. cbn. rewrite lookup_insert_eq. cbn. by eapply IH.
  - intros _ [= <-]. cbn. rewrite lookup_insert_eq. cbn. apply walk_fresh_dirs.
Qed.

Lemma write_file_walk fs p c fs' :
  write_file fs p c = Ok fs' → walk fs' p = Some (File c).
Proof.
  revert fs fs'. induction p as [|name p IH]; intros fs fs'.
  { by destruct fs. }
  destruct fs as [?|entries]; [done|]. cbn.
  destruct p as [|name' p].
  - destruct (entries !! name) as [[?|?]|]; intros [= <-]; cbn;
      by rewrite lookup_insert_eq.
  - destruct (entries !! name) as [child|]; [|done].
    destruct (write_file child (name' :: p) c) as [child'|] eqn:Hw; [|done].
    intros [= <-]. cbn [walk]. rewrite lookup_insert_eq. cbn [mbind option_bind].
    by eapply IH.
Qed.

(** A load whose folder is there, or was created, and whose file is missing. *)
Lemma load_missing fs p fs' :
  walk fs p = None → folder_create fs p = Ok fs' →
  load_from_pickle_file fs p = (fs', Ok new).
Proof.
  intros Hp Hf. unfold load_from_pickle_file. rewrite Hf.
  enough (walk fs' p = None) as -> by done.
  unfold folder_create in Hf.
  destruct (bool_decide (dirname p ≠ []) && negb (exists_ fs (dirname p))) eqn:Hc;
    [|by injection Hf as <-].
  apply andb_true_iff in Hc as [Hne%bool_decide_eq_true Hex%negb_true_iff].
  destruct (dirname_last p) as [c Hc]; [by intros ->|].
  rewrite Hc. eapply makedirs_fresh; [done..].
Qed.

(** C7, as stated, fails where the folder of the missing file cannot be
    created: [work] is a regular file, [work/results/tssc.pkl] does not
    exist, and the load raises. *)
Lemma load_missing_file_raises :
  walk fs_work_is_file ["work"; "results"; "tssc.pkl"] = None
  ∧ load_from_pickle_file fs_work_is_file ["work"; "results"; "tssc.pkl"]
    = (fs_work_is_file, Raise TSSCException).
Proof. split; vm_compute; reflexivity. Qed.

(** C7, amended.  Loading a path that does not exist returns a fresh empty
    store when its folder is there or is created by [folder_create], and
    raises [TSSCException] when [folder_create] raises; loading a zero-length
    file returns a fresh empty store; loading a file that is not empty and
    does not unpickle to a [WorkflowResult] raises [TSSCException]. *)
Theorem load_from_pickle_file_contract fs p :
  (walk fs p = None →
     match folder_create fs p with
     | Ok fs' => load_from_pickle_file fs p = (fs', Ok new)
     | Raise _ => load_from_pickle_file fs p = (fs, Raise TSSCException)
     end)
  ∧ (∀ c, walk fs p = Some (File c) → zero_length c = true →
       load_from_pickle_file fs p = (fs, Ok new))
  ∧ (∀ c, walk fs p = Some (File c) → zero_length c = false →
       (∀ w, pickle_load c ≠ Ok (ObjWorkflowResult w)) →
       load_from_pickle_file fs p = (fs, Raise TSSCException)).
Proof.
  split; [|split].
  - intros Hp. destruct (folder_create fs p) as [fs'|e] eqn:Hf.
    + by apply load_missing.
    + unfold load_from_pickle_file. by rewrite Hf.
  - intros c Hp Hc. unfold load_from_pickle_file.
    rewrite folder_create_exists, Hp, Hc by (by eexists). done.
  - intros c Hp Hc Hw. unfold load_from_pickle_file.
    rewrite folder_create_exists, Hp, Hc by (by eexists). f_equal.
    destruct (pickle_load c) as [[r|w|v]|e] eqn:Hl; try done.
    by destruct (Hw w).
Qed.

(** A missing file in a missing folder, a zero-length file, and a file that
    holds a pickled [dict]. *)
Lemma load_from_pickle_file_contract_witness :
  load_from_pickle_file fs_empty ["out"; "tssc.pkl"]
  = (Dir {[ "out" := Dir ∅ ]}, Ok new)
  ∧ load_from_pickle_file fs_zero_length ["tssc.pkl"] = (fs_zero_length, Ok new)
  ∧ load_from_pickle_file fs_other_pickle ["tssc.pkl"]
    = (fs_other_pickle, Raise TSSCException).
Proof.
  split; [|split].
  - destruct (load_from_pickle_file_contract fs_empty ["out"; "tssc.pkl"])
      as (H & _ & _).
    apply H. reflexivity.
  - destruct (load_from_pickle_file_contract fs_zero_length ["tssc.pkl"])
      as (_ & H & _).
    apply (H Empty); reflexivity.
  - destruct (load_from_pickle_file_contract fs_other_pickle ["tssc.pkl"])
      as (_ & _ & H).
    apply (H (Pickle (ObjValue (PDict ∅)))); [reflexivity..|].
    intros w. vm_compute. discriminate.
Defined.

(** C8.  A snapshot that was written is loaded back as the store it was
    written from: same entries in the same order, same rendered snapshot; the
    load leaves the file system as the write left it. *)
Theorem pickle_round_trip self fs p fs' :
  write_to_pickle_file self fs p = (fs', Ok ()) →
  ∃ loaded,
    load_from_pickle_file fs' p = (fs', Ok loaded)
    ∧ workflow_list loaded = workflow_list self
    ∧ get_all_step_results loaded = get_all_step_results self.
Proof.
  unfold write_to_pickle_file. intros Hw. exists self. split; [|done].
  destruct (folder_create fs p) as [fs1|] eqn:Hf; [|done].
  destruct (write_file fs1 p _) as [fs2|] eqn:Hw2; [|done].
  injection Hw as ->. apply write_file_walk in Hw2.
  unfold load_from_pickle_file.
  by rewrite folder_create_exists, Hw2 by (by eexists).
Qed.

(** The store [(build, x); (build, y)] written below an empty directory. *)
Lemma pickle_round_trip_witness :
  write_to_pickle_file store_xy fs_empty ["tssc-results"; "tssc-results.pkl"]
  = (fs_written, Ok ())
  ∧ ∃ loaded,
      load_from_pickle_file fs_written ["tssc-results"; "tssc-results.pkl"]
      = (fs_written, Ok loaded)
      ∧ workflow_list loaded = workflow_list store_xy
      ∧ get_all_step_results loaded = get_all_step_results store_xy.
Proof.
  assert (write_to_pickle_file store_xy fs_empty ["tssc-results"; "tssc-results.pkl"]
          = (fs_written, Ok ())) as Hw by (vm_compute; reflexivity).
  split; [exact Hw|].
  exact (pickle_round_trip store_xy fs_empty ["tssc-results"; "tssc-results.pkl"]
           fs_written Hw).
Defined.

(** C10, as stated, fails where the folder cannot be created: [out] is a
    regular file, the folder [out/run] of [out/run/tssc.pkl] does not exist,
    and after the load, which raises, it still does not. *)
Lemma load_folder_not_created :
  exists_ fs_out_is_file (dirname ["out"; "run"; "tssc.pkl"]) = false
  ∧ load_from_pickle_file fs_out_is_file ["out"; "run"; "tssc.pkl"]
    = (fs_out_is_file, Raise TSSCException)
  ∧ exists_ (load_from_pickle_file fs_out_is_file ["out"; "run"; "tssc.pkl"]).1
            (dirname ["out"; "run"; "tssc.pkl"]) = false.
Proof. split; [|split]; vm_compute; reflexivity. Qed.

(** C10, amended.  When the folder of the path does not exist, the load
    starts with [os.makedirs] on it.  If that succeeds the load returns a
    fresh empty store and leaves a file system that differs from the one it
    found by the new folder; if it raises, so does the load. *)
Theorem load_from_pickle_file_creates_folder fs p :
  dirname p ≠ [] → exists_ fs (dirname p) = false →
  match makedirs fs (dirname p) with
  | Ok fs' =>
      load_from_pickle_file fs p = (fs', Ok new)
      ∧ isdir fs' (dirname p) = true
      ∧ fs' ≠ fs
  | Raise _ => load_from_pickle_file fs p = (fs, Raise TSSCException)
  end.
Proof.
  intros Hne Hex.
  assert (folder_create fs p = makedirs fs (dirname p)) as Hf.
  { unfold folder_create. rewrite Hex. by rewrite bool_decide_eq_true_2. }
  assert (walk fs p = None) as Hp.
  { destruct (dirname_last p) as [c Hc]; [by intros ->|].
    destruct (walk fs p) as [n|] eqn:Hw; [|done].
    rewrite Hc in Hw. apply walk_parent in Hw as [entries Hw].
    unfold exists_ in Hex. by rewrite Hw in Hex. }
  destruct (makedirs fs (dirname p)) as [fs'|e] eqn:Hm.
  - split; [by apply load_missing|].
    pose proof (makedirs_isdir _ _ _ Hm) as Hd. split; [done|].
    intros ->. unfold isdir, exists_ in *.
    by destruct (walk fs (dirname p)) as [[?|?]|].
  - unfold load_from_pickle_file. by rewrite Hf.
Qed.

(** The load of [out/tssc.pkl] in an empty directory creates [out]. *)
Lemma load_from_pickle_file_creates_folder_witness :
  load_from_pickle_file fs_empty ["out"; "tssc.pkl"]
  = (Dir {[ "out" := Dir ∅ ]}, Ok new)
  ∧ isdir (Dir {[ "out" := Dir ∅ ]}) ["out"] = true
  ∧ Dir {[ "out" := Dir ∅ ]} ≠ fs_empty.
Proof.
  apply (load_from_pickle_file_creates_folder fs_empty ["out"; "tssc.pkl"]).
  - vm_compute. discriminate.
  - reflexivity.
Defined.

(** * Further properties *)

(** ** More on the deep merge *)

Lemma merge_results_disjoint_union dict1 dict2 :
  (∀ k, dict1 !! k = None ∨ dict2 !! k = None) →
  merge_results dict1 (PDict dict2) = Ok (dict1 ∪ dict2).
Proof.
  intros Hdisj.
  destruct (merge_results dict1 (PDict dict2)) as [m|e] eqn:Hm.
  - f_equal. apply map_eq. intros k.
    pose proof (merge_results_lookup _ _ _ k Hm) as Hk.
    destruct (dict1 !! k) as [v1|] eqn:H1.
    + rewrite (lookup_union_Some_l _ _ _ _ H1).
      destruct (Hdisj k) as [Hn|Hn]; [congruence|]. rewrite Hn in Hk.
      destruct v1; exact Hk.
    + rewrite Hk. symmetry. rewrite lookup_union_r by exact H1. reflexivity.
  - apply merge_results_Raise in Hm as [_ Hc]. exfalso.
    inversion Hc as [|? ? k d v H1 H2 _]; subst.
    destruct (Hdisj k); congruence.
Qed.

(** X1.  When [merge_results] returns, the keys of the result are those of
    [newer] and of [older]; a key of one side only keeps that side's value, a
    key of both holds [newer]'s value when that is not a mapping and the merge
    of the two values when it is. *)
Theorem merge_results_key_by_key newer older m :
  merge_results newer (PDict older) = Ok m →
  dom m = dom newer ∪ dom older
  ∧ ∀ k,
      match newer !! k, older !! k with
      | None, v => m !! k = v
      | Some v, None => m !! k = Some v
      | Some (PDict d), Some v =>
          ∃ merged, merge_results d v = Ok merged ∧ m !! k = Some (PDict merged)
      | Some (PAtom a), Some _ => m !! k = Some (PAtom a)
      end.
Proof.
  intros Hm. split; [exact (merge_results_dom _ _ _ Hm)|].
  intros k. exact (merge_results_lookup _ _ _ k Hm).
Qed.

Lemma merge_results_key_by_key_witness :
  dom docstring_merged = dom docstring_dict1 ∪ dom docstring_dict2
  ∧ ∀ k,
      match docstring_dict1 !! k, docstring_dict2 !! k with
      | None, v => docstring_merged !! k = v
      | Some v, None => docstring_merged !! k = Some v
      | Some (PDict d), Some v =>
          ∃ merged, merge_results d v = Ok merged
                    ∧ docstring_merged !! k = Some (PDict merged)
      | Some (PAtom a), Some _ => docstring_merged !! k = Some (PAtom a)
      end.
Proof.
  apply (merge_results_key_by_key docstring_dict1 docstring_dict2 docstring_merged).
  vm_compute. reflexivity.
Defined.



(** X4.  Two mappings without a common key merge into their union, in either
    order; the empty mapping is neutral on both sides. *)
Theorem merge_results_disjoint newer older :
  dom newer ## dom older →
  merge_results newer (PDict older) = Ok (newer ∪ older)
  ∧ merge_results older (PDict newer) = Ok (newer ∪ older).
Proof.
  intros Hdisj.
  assert (∀ k, newer !! k = None ∨ older !! k = None) as Hk.
  { intros k. destruct (newer !! k) eqn:H1; [|by left].
    destruct (older !! k) eqn:H2; [|by right].
    destruct (Hdisj k); apply elem_of_dom; by eexists. }
  split; [by apply merge_results_disjoint_union|].
  rewrite merge_results_disjoint_union by (intros k; destruct (Hk k); auto).
  f_equal. symmetry. apply map_union_comm. by apply map_disjoint_dom.
Qed.

Lemma merge_results_disjoint_witness :
  merge_results docstring_dict1 (PDict ∅) = Ok (docstring_dict1 ∪ ∅)
  ∧ merge_results ∅ (PDict docstring_dict1) = Ok (docstring_dict1 ∪ ∅).
Proof.
  apply (merge_results_disjoint docstring_dict1 ∅).
  rewrite dom_empty_L. apply disjoint_empty_r.
Defined.




(** ** More on the upsert *)

Lemma delete_scan_cons step_name x l :
  delete_scan step_name (x :: l)
  = if decide (StepResult.step_name x = step_name)
    then match l with [] => [] | skipped :: rest => skipped :: delete_scan step_name rest end
    else x :: delete_scan step_name l.
Proof. reflexivity. Qed.

Lemma delete_scan_other_steps step_name l :
  filter (λ other, StepResult.step_name other ≠ step_name) (delete_scan step_name l)
  = filter (λ other, StepResult.step_name other ≠ step_name) l.
Proof.
  enough (filter (λ other, StepResult.step_name other ≠ step_name)
                 (delete_scan step_name l)
          = filter (λ other, StepResult.step_name other ≠ step_name) l
          ∧ ∀ x, filter (λ other, StepResult.step_name other ≠ step_name)
                        (delete_scan step_name (x :: l))
                 = filter (λ other, StepResult.step_name other ≠ step_name) (x :: l))
    as [? _] by assumption.
  induction l as [|y l [IH1 IH2]].
  - split; [reflexivity|]. intros x. rewrite delete_scan_cons.
    case_decide as Hx; [|reflexivity].
    rewrite filter_cons_False by (intros Hne; by apply Hne). reflexivity.
  - split; [apply IH2|]. intros x. rewrite (delete_scan_cons _ x).
    case_decide as Hx.
    + rewrite (filter_cons_False _ x) by (intros Hne; by apply Hne).
      rewrite !filter_cons. case_decide; by rewrite IH1.
    + rewrite !(filter_cons_True _ x) by exact Hx. by rewrite IH2.
Qed.

Lemma delete_scan_length step_name l : (length (delete_scan step_name l) ≤ length l)%nat.
Proof. apply sublist_length, delete_scan_sublist. Qed.

(** X7.  [delete_step_result_by_name] only removes entries: what it leaves
    is a sublist, the entries of other step names all stay in their order,
    and a list without the step name is left as it is. *)
Theorem delete_step_result_by_name_keeps_other_steps self step_name :
  workflow_list (delete_step_result_by_name self step_name)
    `sublist_of` workflow_list self
  ∧ filter (λ other, StepResult.step_name other ≠ step_name)
           (workflow_list (delete_step_result_by_name self step_name))
    = filter (λ other, StepResult.step_name other ≠ step_name) (workflow_list self)
  ∧ (Forall (λ other, StepResult.step_name other ≠ step_name) (workflow_list self) →
     delete_step_result_by_name self step_name = self).
Proof.
  rewrite delete_step_result_by_name_scan. cbn [workflow_list].
  split; [apply delete_scan_sublist|]. split; [apply delete_scan_other_steps|].
  intros Hnone. rewrite delete_scan_none by exact Hnone. by destruct self.
Qed.

(** X8.  [delete_step_result_by_name] deletes while it enumerates: the entry
    that follows a deleted one is kept whatever its step name, and the scan
    goes on behind it. *)
Theorem delete_step_result_by_name_skips before deleted skipped after step_name :
  Forall (λ other, StepResult.step_name other ≠ step_name) before →
  StepResult.step_name deleted = step_name →
  workflow_list
    (delete_step_result_by_name (mk (before ++ deleted :: skipped :: after)) step_name)
  = before ++ skipped
      :: workflow_list (delete_step_result_by_name (mk after) step_name).
Proof.
  intros Hbefore Hdeleted. rewrite !delete_step_result_by_name_scan. cbn [workflow_list].
  induction Hbefore as [|x before Hx _ IH]; cbn [delete_scan app].
  - by rewrite decide_True.
  - rewrite decide_False by exact Hx. by rewrite IH.
Qed.

Lemma delete_step_result_by_name_skips_witness :
  workflow_list
    (delete_step_result_by_name (mk ([test_0] ++ build_y :: build_x :: [build_x3])) "build")
  = [test_0] ++ build_x :: workflow_list (delete_step_result_by_name (mk [build_x3]) "build").
Proof.
  apply (delete_step_result_by_name_skips [test_0] build_y build_x [build_x3] "build").
  - repeat constructor. discriminate.
  - reflexivity.
Defined.

Lemma get_step_result_by_step_name_in_first l step_name sub_step_name old :
  get_step_result_by_step_name_in l step_name sub_step_name = Some old ↔
  ∃ before after,
    l = before ++ old :: after
    ∧ StepResult.identity old = (step_name, sub_step_name)
    ∧ Forall (λ other, StepResult.identity other ≠ (step_name, sub_step_name)) before.
Proof.
  unfold StepResult.identity. split.
  - induction l as [|current l IH]; [done|]. cbn.
    destruct (decide (StepResult.step_name current = step_name)) as [Hs|Hs];
      [destruct (decide (StepResult.sub_step_name current = sub_step_name)) as [Hss|Hss]|].
    + intros [= <-]. exists [], l. split; [done|]. split; [congruence|constructor].
    + intros (before & after & -> & Hid & Hb)%IH. exists (current :: before), after.
      split; [done|]. split; [done|]. constructor; [congruence|done].
    + intros (before & after & -> & Hid & Hb)%IH. exists (current :: before), after.
      split; [done|]. split; [done|]. constructor; [congruence|done].
  - intros (before & after & -> & [= Hs Hss] & Hb).
    induction Hb as [|x before Hx _ IH]; cbn.
    + by rewrite !decide_True.
    + rewrite IH. repeat case_decide; congruence.
Qed.

(** X6.  [get_step_result_by_step_name] returns the first entry of the
    identity asked for, and [None] exactly when there is none. *)
Theorem get_step_result_by_step_name_first self step_name sub_step_name :
  (∀ old,
     get_step_result_by_step_name self step_name sub_step_name = Some old ↔
     ∃ before after,
       workflow_list self = before ++ old :: after
       ∧ StepResult.identity old = (step_name, sub_step_name)
       ∧ Forall (λ other, StepResult.identity other ≠ (step_name, sub_step_name))
                before)
  ∧ (get_step_result_by_step_name self step_name sub_step_name = None ↔
     Forall (λ other, StepResult.identity other ≠ (step_name, sub_step_name))
            (workflow_list self)).
Proof.
  unfold get_step_result_by_step_name. split.
  - intros old. apply get_step_result_by_step_name_in_first.
  - split; [apply get_step_result_by_step_name_in_None|].
    intros Hnone.
    destruct (get_step_result_by_step_name_in _ _ _) as [old|] eqn:Hold; [|reflexivity].
    apply get_step_result_by_step_name_in_Some in Hold as [Hin Hid].
    eapply Forall_forall in Hnone; [|exact Hin]. by destruct Hnone.
Qed.







(** X13.  The shape of the artifacts, a rendered artifact with a value that
    is not [None] under every name, is kept by [add_step_result]. *)
Theorem add_step_result_keeps_well_formed self r self' :
  Forall StepResult.well_formed (workflow_list self) → StepResult.well_formed r →
  add_step_result self (ObjStepResult r) = Ok self' →
  Forall StepResult.well_formed (workflow_list self').
Proof. apply add_step_result_well_formed. Qed.

Lemma add_step_result_keeps_well_formed_witness :
  Forall StepResult.well_formed (workflow_list (mk [test_0; build_x3])).
Proof.
  apply (add_step_result_keeps_well_formed (mk [build_x; test_0]) build_x3).
  - repeat constructor; [apply well_formed_entry_v|apply well_formed_entry_0].
  - apply well_formed_entry_v.
  - vm_compute. reflexivity.
Defined.

(** X11.  On a store with unique identities where the stage of [r] has a
    single sub step, [add_step_result] removes the entry of [r]'s identity,
    keeps all others in their order, appends the new entry, and identities
    stay unique. *)
Theorem add_step_result_on_single_sub_steps self r self' :
  unique_identities self → single_sub_step r (workflow_list self) →
  add_step_result self (ObjStepResult r) = Ok self' →
  unique_identities self'
  ∧ ∃ r',
      workflow_list self'
      = filter (λ other, StepResult.identity other ≠ StepResult.identity r)
               (workflow_list self) ++ [r']
      ∧ StepResult.identity r' = StepResult.identity r.
Proof.
  intros Hnd Hsingle Hadd.
  destruct (add_step_result_single_sub_step _ _ _ Hnd Hsingle Hadd)
    as (r' & Hl & Hr' & Hnd').
  split; [exact Hnd'|]. exists r'. split; [exact Hl|].
  destruct Hr' as [->|(old & merged & _ & _ & _ & ->)]; reflexivity.
Qed.

Lemma add_step_result_on_single_sub_steps_witness :
  unique_identities (mk [test_0; build_x3])
  ∧ ∃ r',
      workflow_list (mk [test_0; build_x3])
      = filter (λ other, StepResult.identity other ≠ StepResult.identity build_x3)
               (workflow_list (mk [build_x; test_0])) ++ [r']
      ∧ StepResult.identity r' = StepResult.identity build_x3.
Proof.
  apply (add_step_result_on_single_sub_steps (mk [build_x; test_0]) build_x3
           (mk [test_0; build_x3])).
  - unfold unique_identities. cbn. repeat constructor.
    + intros [Heq|Hin%elem_of_nil]%elem_of_cons; [discriminate Heq|exact Hin].
    + intros Hin%elem_of_nil. exact Hin.
  - constructor; [intros _; reflexivity|].
    constructor; [intros Heq; discriminate Heq|constructor].
  - vm_compute. reflexivity.
Defined.

Lemma is_None_false v : is_None v = false ↔ v ≠ PNone.
Proof.
  split.
  - intros Hv ->. discriminate Hv.
  - intros Hv. destruct (is_None v) eqn:Hn; [|reflexivity].
    by apply is_None_true in Hn.
Qed.

Lemma scan_step_sub_step_hit artifact step_name sub_step_name l :
  scan_step_sub_step artifact step_name sub_step_name PNone l ≠ PNone →
  Exists (λ r, StepResult.step_name r = step_name ∧ yields r artifact) l.
Proof.
  induction l as [|r l IH]; [done|]. cbn.
  destruct (decide (StepResult.step_name r = step_name)) as [Hs|Hs];
    [destruct (decide (StepResult.sub_step_name r = Some sub_step_name))|].
  - intros Hv%is_None_false. by left.
  - intros ?. right. by apply IH.
  - intros ?. right. by apply IH.
Qed.

Lemma scan_step_hit artifact step_name value l :
  Exists (λ r, StepResult.step_name r = step_name ∧ yields r artifact) l →
  scan_step artifact step_name value l ≠ PNone.
Proof.
  intros Hex. revert value. induction Hex as [r l [Hs Hy]|r l _ IH]; intros value; cbn.
  - rewrite decide_True by exact Hs. unfold yields in Hy. rewrite Hy. cbn.
    by apply is_None_false.
  - case_decide; [|apply IH].
    destruct (is_None (StepResult.get_artifact_value r artifact)) eqn:Hn; cbn;
      [apply IH|by apply is_None_false].
Qed.

Lemma scan_step_hit_inv artifact step_name value l :
  scan_step artifact step_name value l ≠ PNone →
  value ≠ PNone ∨ Exists (λ r, yields r artifact) l.
Proof.
  revert value. induction l as [|r l IH]; intros value; cbn; [by left|].
  case_decide.
  - destruct (is_None (StepResult.get_artifact_value r artifact)) eqn:Hn; cbn.
    + intros [Hv|Hex]%IH; [|by right; right].
      by apply is_None_true in Hn.
    + intros _. right. by left.
  - intros [Hv|Hex]%IH; [by left|by right; right].
Qed.

Lemma scan_all_hit artifact value l :
  Exists (λ r, yields r artifact) l → scan_all artifact value l ≠ PNone.
Proof.
  intros Hex. revert value. induction Hex as [r l Hy|r l _ IH]; intros value; cbn.
  - unfold yields in Hy. rewrite Hy. cbn. by apply is_None_false.
  - destruct (is_None (StepResult.get_artifact_value r artifact)) eqn:Hn; cbn;
      [apply IH|by apply is_None_false].
Qed.

(** X14.  Widening the scope of a query never loses a hit: when the query
    for a step and sub step returns a value, so does the query for the step,
    and then so does the query without scope. *)
Theorem get_artifact_value_wider_scope self artifact step_name sub_step_name :
  (get_artifact_value self artifact (Some step_name) (Some sub_step_name) ≠ PNone →
   get_artifact_value self artifact (Some step_name) None ≠ PNone)
  ∧ (get_artifact_value self artifact (Some step_name) None ≠ PNone →
     get_artifact_value self artifact None None ≠ PNone).
Proof.
  unfold get_artifact_value. split.
  - intros Hv. by apply scan_step_hit, (scan_step_sub_step_hit _ _ sub_step_name).
  - intros [Hv|Hex]%scan_step_hit_inv; [done|]. by apply scan_all_hit.
Qed.

(** ** The rendered views *)

Lemma merge_results_singleton_new dict1 k v :
  dict1 !! k = None → merge_results dict1 (PDict {[ k := v ]}) = Ok (<[k := v]> dict1).
Proof.
  intros Hk. rewrite merge_results_disjoint_union.
  - by rewrite insert_union_singleton_r.
  - intros k'. destruct (decide (k = k')) as [<-|Hne]; [by left|].
    right. by apply lookup_singleton_ne.
Qed.

Lemma merge_results_singleton_nested dict1 k d v merged :
  dict1 !! k = Some (PDict d) → merge_results d v = Ok merged →
  merge_results dict1 (PDict {[ k := v ]}) = Ok (<[k := PDict merged]> dict1).
Proof.
  intros Hk Hd.
  destruct (merge_results dict1 (PDict {[ k := v ]})) as [m|e] eqn:Hm.
  - f_equal. apply map_eq. intros k'.
    pose proof (merge_results_lookup _ _ _ k' Hm) as Hk'.
    destruct (decide (k = k')) as [<-|Hne].
    + rewrite Hk, lookup_singleton_eq in Hk'. rewrite lookup_insert_eq.
      destruct Hk' as (merged' & Hmerged' & ->). congruence.
    + rewrite lookup_singleton_ne in Hk' by exact Hne.
      rewrite lookup_insert_ne by exact Hne.
      destruct (dict1 !! k') as [[?|?]|]; exact Hk'.
  - apply merge_results_Raise in Hm as [_ Hc]. exfalso.
    inversion Hc as [|? ? k' d' v' H1 H2 Hc']; subst.
    apply lookup_singleton_Some in H2 as [<- <-].
    rewrite Hk in H1. injection H1 as <-.
    apply merge_results_clash in Hc'. congruence.
Qed.

Lemma sub_step_results_snoc l r step_name :
  sub_step_results (l ++ [r]) step_name
  = if decide (StepResult.step_name r = step_name)
    then <[sub_key r := PDict (StepResult.get_sub_step_result r)]>
           (sub_step_results l step_name)
    else sub_step_results l step_name.
Proof. unfold sub_step_results. by rewrite foldl_snoc. Qed.

Lemma render_all_snoc l r :
  render_all (l ++ [r])
  = <[StepResult.step_name r :=
        PDict (<[sub_key r := PDict (StepResult.get_sub_step_result r)]>
                 (match render_all l !! StepResult.step_name r with
                  | Some (PDict sub_steps) => sub_steps
                  | _ => ∅
                  end))]> (render_all l).
Proof. unfold render_all. by rewrite foldl_snoc. Qed.

Lemma sub_step_results_none l step_name key :
  Forall (λ other, render_key other ≠ (step_name, key)) l →
  sub_step_results l step_name !! key = None.
Proof.
  induction l as [|r l IH] using rev_ind; [done|].
  intros [Hl Hr%Forall_inv]%Forall_app. rewrite sub_step_results_snoc.
  case_decide as Hs; [|by apply IH].
  rewrite lookup_insert_ne; [by apply IH|].
  intros Hkey. apply Hr. unfold render_key. congruence.
Qed.

Lemma sub_step_results_no_step l step_name :
  Forall (λ other, StepResult.step_name other ≠ step_name) l →
  sub_step_results l step_name = ∅.
Proof.
  induction l as [|r l IH] using rev_ind; [done|].
  intros [Hl Hr%Forall_inv]%Forall_app. rewrite sub_step_results_snoc.
  rewrite decide_False by exact Hr. by apply IH.
Qed.

(** The last entry of a key is the one shown. *)
Lemma sub_step_results_last before entry after :
  Forall (λ other, render_key other ≠ render_key entry) after →
  sub_step_results (before ++ entry :: after) (StepResult.step_name entry)
    !! sub_key entry
  = Some (PDict (StepResult.get_sub_step_result entry)).
Proof.
  induction after as [|r after IH] using rev_ind.
  - intros _. rewrite sub_step_results_snoc, decide_True by reflexivity.
    by rewrite lookup_insert_eq.
  - intros [Hafter Hr%Forall_inv]%Forall_app.
    replace (before ++ entry :: after ++ [r]) with ((before ++ entry :: after) ++ [r])
      by (by rewrite <-app_assoc).
    rewrite sub_step_results_snoc.
    case_decide as Hs; [|by apply IH].
    rewrite lookup_insert_ne; [by apply IH|].
    intros Hkey. apply Hr. unfold render_key. congruence.
Qed.

Lemma render_all_lookup l step_name :
  render_all l !! step_name
  = if decide (Exists (λ r, StepResult.step_name r = step_name) l)
    then Some (PDict (sub_step_results l step_name))
    else None.
Proof.
  induction l as [|r l IH] using rev_ind.
  { rewrite decide_False; [done|]. by intros ?%Exists_nil. }
  rewrite render_all_snoc, sub_step_results_snoc.
  destruct (decide (StepResult.step_name r = step_name)) as [<-|Hne].
  - rewrite lookup_insert_eq.
    rewrite (decide_True (P := Exists _ (l ++ [r])))
      by (apply Exists_app; right; by left).
    rewrite IH. case_decide as Hex; [done|].
    rewrite sub_step_results_no_step; [done|].
    apply Forall_forall. intros other Hin Hs. apply Hex, Exists_exists. by exists other.
  - rewrite lookup_insert_ne by exact Hne. rewrite IH.
    destruct (decide (Exists (λ r0, StepResult.step_name r0 = step_name) l)) as [Hex|Hex].
    + rewrite decide_True; [done|]. apply Exists_app. by left.
    + rewrite decide_False; [done|].
      intros [?|[?|?%Exists_nil]%Exists_cons]%Exists_app; done.
Qed.

Lemma get_all_step_results_render_all self :
  NoDup (render_key <$> workflow_list self) →
  get_all_step_results self = Ok {[ "tssc-results" := PDict (render_all (workflow_list self)) ]}.
Proof.
  unfold get_all_step_results. intros Hnd.
  enough (foldl (λ acc i, all_results ← acc;
                   merge_results all_results (PDict (StepResult.get_step_result i)))
                (Ok ∅) (workflow_list self)
          = Ok (render_all (workflow_list self))) as -> by reflexivity.
  induction (workflow_list self) as [|r l IH] using rev_ind; [reflexivity|].
  rewrite fmap_app in Hnd. apply NoDup_app in Hnd as (Hnd & Hr & _).
  rewrite foldl_snoc, IH by exact Hnd. cbn [mbind res_bind].
  rewrite render_all_snoc. unfold StepResult.get_step_result. fold (sub_key r).
  assert (Forall (λ other, render_key other ≠ render_key r) l) as Hfresh.
  { apply Forall_forall. intros other Hin Heq. apply (Hr (render_key r)).
    - rewrite <-Heq. by apply list_elem_of_fmap_2.
    - cbn. left. }
  destruct (render_all l !! StepResult.step_name r) as [v|] eqn:Hv.
  - rewrite render_all_lookup in Hv. case_decide; [|discriminate Hv].
    injection Hv as <-.
    erewrite merge_results_singleton_nested; [reflexivity| |].
    + rewrite render_all_lookup. by rewrite decide_True.
    + apply merge_results_singleton_new. by apply sub_step_results_none.
  - rewrite merge_results_singleton_new by exact Hv. by rewrite insert_empty.
Qed.

Lemma render_key_identity r step_name sub :
  is_Some (StepResult.sub_step_name r) →
  render_key r = (step_name, sub) ↔ StepResult.identity r = (step_name, Some sub).
Proof.
  unfold render_key, sub_key, StepResult.identity. intros [s ->]. cbn.
  split; intros [= -> ->]; reflexivity.
Qed.

Lemma unique_identities_render_keys l :
  NoDup (StepResult.identity <$> l) →
  Forall (λ r, is_Some (StepResult.sub_step_name r)) l →
  NoDup (render_key <$> l).
Proof.
  induction l as [|x l IH]; [constructor|].
  rewrite !fmap_cons. intros [Hx Hnd]%NoDup_cons Hsome.
  apply Forall_cons in Hsome as [Hxs Hsome].
  apply NoDup_cons. split; [|by apply IH].
  intros (y & Heq & Hin)%list_elem_of_fmap. apply Hx.
  apply list_elem_of_fmap. exists y. split; [|exact Hin].
  eapply Forall_forall in Hsome; [|exact Hin].
  destruct Hxs as [sx Hsx].
  assert (StepResult.identity y = (StepResult.step_name x, Some sx)) as ->.
  { apply (render_key_identity y _ _ Hsome).
    rewrite <-Heq. unfold render_key, sub_key. by rewrite Hsx. }
  unfold StepResult.identity. by rewrite Hsx.
Qed.

(** X15.  [get_step_result] shows, under every sub step name of the step,
    the rendering of the last entry of that identity, and nothing under other
    names (every entry having a sub step name). *)
Theorem get_step_result_last_wins self step_name :
  Forall (λ r, is_Some (StepResult.sub_step_name r)) (workflow_list self) →
  ∃ result,
    get_step_result self step_name
    = {[ "tssc-results" := PDict {[ step_name := PDict result ]} ]}
    ∧ (∀ before entry after sub_step_name,
         workflow_list self = before ++ entry :: after →
         StepResult.identity entry = (step_name, Some sub_step_name) →
         Forall (λ other, StepResult.identity other ≠ (step_name, Some sub_step_name))
                after →
         result !! sub_step_name = Some (PDict (StepResult.get_sub_step_result entry)))
    ∧ (∀ sub_step_name,
         Forall (λ other, StepResult.identity other ≠ (step_name, Some sub_step_name))
                (workflow_list self) →
         result !! sub_step_name = None).
Proof.
  intros Hsome. exists (sub_step_results (workflow_list self) step_name).
  split; [reflexivity|]. split.
  - intros before entry after sub Hl Hid Hafter. rewrite Hl in *.
    injection Hid as <- Hsub.
    assert (sub = sub_key entry) as -> by (unfold sub_key; by rewrite Hsub).
    apply sub_step_results_last.
    apply Forall_forall. intros other Hin Heq.
    eapply Forall_forall in Hafter; [|exact Hin]. apply Hafter.
    apply render_key_identity; [|exact Heq].
    eapply Forall_forall in Hsome; [exact Hsome|].
    apply elem_of_app. right. by right.
  - intros sub Hnone. apply sub_step_results_none.
    apply Forall_forall. intros other Hin Heq.
    eapply Forall_forall in Hnone; [|exact Hin]. apply Hnone.
    apply render_key_identity; [|exact Heq].
    by eapply Forall_forall in Hsome.
Qed.

Lemma get_step_result_last_wins_witness :
  ∃ result,
    get_step_result store_xy "build"
    = {[ "tssc-results" := PDict {[ "build" := PDict result ]} ]}
    ∧ (∀ before entry after sub_step_name,
         workflow_list store_xy = before ++ entry :: after →
         StepResult.identity entry = ("build", Some sub_step_name) →
         Forall (λ other, StepResult.identity other ≠ ("build", Some sub_step_name))
                after →
         result !! sub_step_name = Some (PDict (StepResult.get_sub_step_result entry)))
    ∧ (∀ sub_step_name,
         Forall (λ other, StepResult.identity other ≠ ("build", Some sub_step_name))
                (workflow_list store_xy) →
         result !! sub_step_name = None).
Proof.
  apply (get_step_result_last_wins store_xy "build").
  constructor; [by eexists|]. constructor; [by eexists|constructor].
Defined.

(** X16.  On a store with unique identities (every entry having a sub step
    name) [get_all_step_results] does not raise; it shows every entry in
    full under its step and sub step name, shows no other step, and the part
    for a step is what [get_step_result] shows for it. *)
Theorem get_all_step_results_unique self :
  unique_identities self →
  Forall (λ r, is_Some (StepResult.sub_step_name r)) (workflow_list self) →
  ∃ all_results,
    get_all_step_results self = Ok {[ "tssc-results" := PDict all_results ]}
    ∧ (∀ entry sub_step_name,
         entry ∈ workflow_list self →
         StepResult.sub_step_name entry = Some sub_step_name →
         ∃ sub_steps,
           all_results !! StepResult.step_name entry = Some (PDict sub_steps)
           ∧ sub_steps !! sub_step_name
             = Some (PDict (StepResult.get_sub_step_result entry))
           ∧ get_step_result self (StepResult.step_name entry)
             = {[ "tssc-results" :=
                    PDict {[ StepResult.step_name entry := PDict sub_steps ]} ]})
    ∧ (∀ step_name,
         Forall (λ r, StepResult.step_name r ≠ step_name) (workflow_list self) →
         all_results !! step_name = None).
Proof.
  intros Hnd Hsome.
  pose proof (unique_identities_render_keys _ Hnd Hsome) as Hkeys.
  exists (render_all (workflow_list self)).
  split; [by apply get_all_step_results_render_all|]. split.
  - intros entry sub Hin Hsub.
    exists (sub_step_results (workflow_list self) (StepResult.step_name entry)).
    split; [|split; [|reflexivity]].
    + rewrite render_all_lookup, decide_True; [reflexivity|].
      apply Exists_exists. by exists entry.
    + apply list_elem_of_split in Hin as (before & after & Hl). rewrite Hl in *.
      assert (sub = sub_key entry) as -> by (unfold sub_key; by rewrite Hsub).
      apply sub_step_results_last.
      rewrite fmap_app, fmap_cons in Hkeys.
      apply NoDup_app in Hkeys as (_ & _ & [Hnotin _]%NoDup_cons).
      apply Forall_forall. intros other Hother Heq. apply Hnotin.
      rewrite <-Heq. by apply list_elem_of_fmap_2.
  - intros step_name Hnone. rewrite render_all_lookup, decide_False; [reflexivity|].
    intros (r & Hin & Hr)%Exists_exists.
    eapply Forall_forall in Hnone; [|exact Hin]. by apply Hnone.
Qed.

Lemma get_all_step_results_unique_witness :
  ∃ all_results,
    get_all_step_results store_xy = Ok {[ "tssc-results" := PDict all_results ]}
    ∧ (∀ entry sub_step_name,
         entry ∈ workflow_list store_xy →
         StepResult.sub_step_name entry = Some sub_step_name →
         ∃ sub_steps,
           all_results !! StepResult.step_name entry = Some (PDict sub_steps)
           ∧ sub_steps !! sub_step_name
             = Some (PDict (StepResult.get_sub_step_result entry))
           ∧ get_step_result store_xy (StepResult.step_name entry)
             = {[ "tssc-results" :=
                    PDict {[ StepResult.step_name entry := PDict sub_steps ]} ]})
    ∧ (∀ step_name,
         Forall (λ r, StepResult.step_name r ≠ step_name) (workflow_list store_xy) →
         all_results !! step_name = None).
Proof.
  apply (get_all_step_results_unique store_xy).
  - unfold unique_identities. cbn. repeat constructor.
    + intros [Heq|Hin%elem_of_nil]%elem_of_cons; [discriminate Heq|exact Hin].
    + intros Hin%elem_of_nil. exact Hin.
  - constructor; [by eexists|]. constructor; [by eexists|constructor].
Defined.

(** ** More on the files *)

Lemma makedirs_walk_file fs d fs' q c :
  makedirs fs d = Ok fs' → walk fs q = Some (File c) → walk fs' q = Some (File c).
Proof.
  revert fs fs' q. induction d as [|x d IH]; intros fs fs' q.
  { by destruct fs. }
  destruct fs as [?|entries]; [done|]. cbn [makedirs].
  destruct q as [|y q]; [done|]. cbn [walk].
  destruct (entries !! x) as [child|] eqn:Hx.
  - destruct (makedirs child d) as [child'|] eqn:Hm; [|done].
    cbn [mbind res_bind]. intros [= <-]. cbn [walk].
    destruct (decide (x = y)) as [<-|Hne].
    + rewrite Hx, lookup_insert_eq. cbn. by eapply IH.
    + by rewrite lookup_insert_ne.
  - intros [= <-]. cbn [walk].
    destruct (decide (x = y)) as [<-|Hne]; [by rewrite Hx|].
    by rewrite lookup_insert_ne.
Qed.

Lemma write_file_walk_other fs p c' fs' q c :
  write_file fs p c' = Ok fs' → q ≠ p → walk fs q = Some (File c) →
  walk fs' q = Some (File c).
Proof.
  revert fs fs' q. induction p as [|x p IH]; intros fs fs' q.
  { by destruct fs. }
  destruct fs as [?|entries]; [done|]. cbn [write_file].
  destruct q as [|y q]; [done|]. cbn [walk].
  destruct p as [|x' p].
  - destruct (decide (x = y)) as [<-|Hne].
    + destruct (entries !! x) as [[?|?]|] eqn:Hx; [|done..].
      intros _ Hq. cbn. by destruct q.
    + destruct (entries !! x) as [[?|?]|]; [|done|];
        intros [= <-] _; cbn [walk]; by rewrite lookup_insert_ne.
  - destruct (entries !! x) as [child|] eqn:Hx; [|done].
    destruct (write_file child (x' :: p) c') as [child'|] eqn:Hw; [|done].
    cbn [mbind res_bind]. intros [= <-] Hq. cbn [walk].
    destruct (decide (x = y)) as [<-|Hne].
    + rewrite Hx, lookup_insert_eq. cbn. apply (IH _ _ _ Hw). congruence.
    + by rewrite lookup_insert_ne.
Qed.

Lemma write_file_Ok_iff fs p c :
  is_Ok (write_file fs p c) ↔ p ≠ [] ∧ isdir fs (dirname p) = true ∧ isdir fs p = false.
Proof.
  unfold isdir, dirname. revert fs. induction p as [|x p IH]; intros fs.
  { split; [by destruct fs; intros [? ?]|by intros [? _]]. }
  destruct fs as [?|entries].
  { split; [by intros [? ?]|]. intros (_ & Hd & _). by destruct p. }
  cbn [write_file]. destruct p as [|x' p].
  - cbn. destruct (entries !! x) as [[?|?]|]; cbn;
      (split; [intros [? ?]; try done|intros (_ & _ & ?); try done]); by eexists.
  - change (removelast (x :: x' :: p)) with (x :: removelast (x' :: p)). cbn [walk].
    destruct (entries !! x) as [child|]; cbn [mbind option_bind].
    + specialize (IH child).
      destruct (write_file child (x' :: p) c) as [child'|] eqn:Hw; cbn [mbind res_bind].
      * split; [intros _|by eexists].
        destruct (proj1 IH) as (_ & ? & ?); [by eexists|]. done.
      * split; [by intros [? ?]|]. intros (_ & Hd & Hp).
        destruct (proj2 IH) as [? ?]; done.
    + split; [by intros [? ?]|]. by intros (_ & ? & _).
Qed.

Lemma write_file_existing fs p c c' :
  p ≠ [] → walk fs p = Some (File c) → is_Ok (write_file fs p c').
Proof.
  intros Hne Hp. apply write_file_Ok_iff.
  split; [done|]. destruct (dirname_last p Hne) as [x Hx].
  unfold isdir. rewrite Hp. split; [|done].
  rewrite Hx in Hp. by apply walk_parent in Hp as [entries ->].
Qed.

Lemma write_file_nonempty fs p c fs' : write_file fs p c = Ok fs' → p ≠ [].
Proof. intros Hw ->. by destruct fs. Qed.

Lemma load_existing fs p c :
  walk fs p = Some (File c) →
  load_from_pickle_file fs p
  = (fs, if zero_length c then Ok new
         else reraise_as TSSCException
                (workflow_result ← pickle_load c;
                 match workflow_result with
                 | ObjWorkflowResult w => Ok w
                 | _ => Raise TSSCException
                 end)).
Proof.
  intros Hp. unfold load_from_pickle_file.
  rewrite folder_create_exists by (by eexists). rewrite Hp.
  by destruct (zero_length c).
Qed.

Lemma folder_create_cases fs p fs' :
  folder_create fs p = Ok fs' →
  fs' = fs
  ∨ (dirname p ≠ [] ∧ exists_ fs (dirname p) = false ∧ makedirs fs (dirname p) = Ok fs').
Proof.
  unfold folder_create.
  destruct (bool_decide (dirname p ≠ []) && negb (exists_ fs (dirname p))) eqn:Hc.
  - apply andb_true_iff in Hc as [Hne%bool_decide_eq_true Hex%negb_true_iff].
    intros Hm. by right.
  - intros [= <-]. by left.
Qed.

Lemma load_from_pickle_file_cases fs p :
  ((load_from_pickle_file fs p).1 = fs
   ∨ ((load_from_pickle_file fs p).2 = Ok new
      ∧ dirname p ≠ [] ∧ exists_ fs (dirname p) = false
      ∧ makedirs fs (dirname p) = Ok (load_from_pickle_file fs p).1))
  ∧ (∀ e, (load_from_pickle_file fs p).2 = Raise e →
          e = TSSCException ∧ (load_from_pickle_file fs p).1 = fs).
Proof.
  destruct (walk fs p) as [[c|entries]|] eqn:Hp.
  - rewrite (load_existing _ _ _ Hp). cbn [fst snd]. split; [by left|].
    intros e. destruct (zero_length c); [done|].
    destruct (pickle_load c) as [[?|?|?]|?]; cbn; intros [= <-]; done.
  - unfold load_from_pickle_file.
    rewrite folder_create_exists by (by eexists). rewrite Hp. cbn.
    split; [by left|done].
  - destruct (folder_create fs p) as [fs1|e1] eqn:Hf.
    + rewrite (load_missing _ _ _ Hp Hf). cbn [fst snd]. split; [|done].
      apply folder_create_cases in Hf as [->|(? & ? & ?)]; [by left|by right].
    + unfold load_from_pickle_file. rewrite Hf. cbn. split; [by left|].
      by intros e [= <-].
Qed.

(** X17.  A load changes the file system in one case only: the folder of the
    file was missing and [os.makedirs] created it, and then the load returns
    a fresh store.  A load that raises, raises [TSSCException] and changes
    nothing. *)
Theorem load_from_pickle_file_effect fs p :
  ((load_from_pickle_file fs p).1 = fs
   ∨ ((load_from_pickle_file fs p).2 = Ok new
      ∧ dirname p ≠ [] ∧ exists_ fs (dirname p) = false
      ∧ makedirs fs (dirname p) = Ok (load_from_pickle_file fs p).1))
  ∧ (∀ e, (load_from_pickle_file fs p).2 = Raise e →
          e = TSSCException ∧ (load_from_pickle_file fs p).1 = fs).
Proof. apply load_from_pickle_file_cases. Qed.

(** X18.  Loading again, from the file system the first load left, gives the
    same result and changes nothing more. *)
Theorem load_from_pickle_file_again fs p :
  load_from_pickle_file (load_from_pickle_file fs p).1 p = load_from_pickle_file fs p.
Proof.
  destruct (load_from_pickle_file_cases fs p) as [[Hfs|(Hr & Hne & Hex & Hm)] _].
  { by rewrite Hfs. }
  destruct (load_from_pickle_file fs p) as [fs1 r] eqn:Hl. cbn [fst snd] in *. subst r.
  destruct (dirname_last p) as [c Hc]; [by intros ->|].
  apply load_missing.
  - rewrite Hc. by eapply makedirs_fresh.
  - unfold folder_create, exists_. apply makedirs_isdir in Hm. unfold isdir in Hm.
    destruct (walk fs1 (dirname p)) as [[?|?]|]; try done.
    by rewrite andb_false_r.
Qed.

Lemma write_to_pickle_file_Ok self fs p fs' :
  write_to_pickle_file self fs p = (fs', Ok ()) →
  p ≠ [] ∧ walk fs' p = Some (File (Pickle (ObjWorkflowResult self)))
  ∧ ∃ fs1, folder_create fs p = Ok fs1
           ∧ write_file fs1 p (Pickle (ObjWorkflowResult self)) = Ok fs'.
Proof.
  unfold write_to_pickle_file.
  destruct (folder_create fs p) as [fs1|] eqn:Hf; [|done].
  destruct (write_file fs1 p _) as [fs2|] eqn:Hw; [|done].
  intros [= <-]. split; [by eapply write_file_nonempty|].
  split; [by eapply write_file_walk|]. by exists fs1.
Qed.


(** X19.  A [write_to_pickle_file] that raises, raises [RuntimeError] and
    leaves the file system as it was. *)
Theorem write_to_pickle_file_failure self fs p fs' e :
  write_to_pickle_file self fs p = (fs', Raise e) → e = RuntimeError ∧ fs' = fs.
Proof.
  unfold write_to_pickle_file.
  destruct (folder_create fs p) as [fs1|] eqn:Hf; [|by intros [= <- <-]].
  destruct (write_file fs1 p _) as [fs2|] eqn:Hw; [done|].
  intros [= <- <-]. split; [done|].
  apply folder_create_cases in Hf as [->|(Hne & Hex & Hm)]; [done|]. exfalso.
  destruct (dirname_last p) as [c Hc]; [by intros ->|].
  destruct (proj2 (write_file_Ok_iff fs1 p (Pickle (ObjWorkflowResult self))))
    as [fs2 Hfs2]; [|congruence].
  split; [by intros ->|]. split; [by eapply makedirs_isdir|].
  unfold isdir. rewrite Hc at 1. by erewrite makedirs_fresh.
Qed.

Lemma write_to_pickle_file_failure_witness :
  RuntimeError = RuntimeError ∧ fs_work_is_file = fs_work_is_file.
Proof.
  apply (write_to_pickle_file_failure store_xy fs_work_is_file
           ["work"; "results"; "tssc.pkl"]).
  vm_compute. reflexivity.
Defined.



(** X21.  A write leaves every other regular file as it was, and a load of
    such a file returns what it returned before the write. *)
Theorem write_to_pickle_file_frame self fs p fs' q c :
  write_to_pickle_file self fs p = (fs', Ok ()) →
  q ≠ p → walk fs q = Some (File c) →
  walk fs' q = Some (File c)
  ∧ load_from_pickle_file fs' q = (fs', (load_from_pickle_file fs q).2).
Proof.
  intros (_ & _ & fs1 & Hf & Hw)%write_to_pickle_file_Ok Hqp Hq.
  assert (walk fs' q = Some (File c)) as Hq'.
  { eapply write_file_walk_other; [exact Hw|exact Hqp|].
    apply folder_create_cases in Hf as [->|(_ & _ & Hm)]; [exact Hq|].
    by eapply makedirs_walk_file. }
  split; [exact Hq'|].
  by rewrite (load_existing _ _ _ Hq), (load_existing _ _ _ Hq').
Qed.

Lemma write_to_pickle_file_frame_witness :
  walk fs_two_files_written ["a.pkl"] = Some (File (Pickle (ObjWorkflowResult store_xy)))
  ∧ load_from_pickle_file fs_two_files_written ["a.pkl"]
    = (fs_two_files_written, (load_from_pickle_file fs_two_files ["a.pkl"]).2).
Proof.
  apply (write_to_pickle_file_frame store_0xy fs_two_files ["b.pkl"]).
  - vm_compute. reflexivity.
  - discriminate.
  - reflexivity.
Defined.

(** X22.  [write_results_to_yml_file] and [write_results_to_json_file] open
    the file before they compute the results: when [get_all_step_results]
    raises, the call raises [RuntimeError] and an existing file is left with
    zero length. *)
Theorem write_results_truncate yaml_dump json_dump self fs p c e :
  get_all_step_results self = Raise e → p ≠ [] → walk fs p = Some (File c) →
  ∃ fs',
    write_results_to_yml_file yaml_dump self fs p = (fs', Raise RuntimeError)
    ∧ write_results_to_json_file json_dump self fs p = (fs', Raise RuntimeError)
    ∧ walk fs' p = Some (File Empty).
Proof.
  intros Hall Hne Hp. unfold write_results_to_yml_file, write_results_to_json_file.
  rewrite folder_create_exists by (by eexists).
  destruct (write_file_existing fs p c Empty Hne Hp) as [fs' Hw].
  rewrite Hw, Hall. exists fs'. split; [done|]. split; [done|].
  by eapply write_file_walk.
Qed.

Lemma write_results_truncate_witness :
  ∃ fs',
    write_results_to_yml_file (λ _, Garbage) store_clash fs_two_files ["a.pkl"]
    = (fs', Raise RuntimeError)
    ∧ write_results_to_json_file (λ _, Garbage) store_clash fs_two_files ["a.pkl"]
      = (fs', Raise RuntimeError)
    ∧ walk fs' ["a.pkl"] = Some (File Empty).
Proof.
  apply (write_results_truncate (λ _, Garbage) (λ _, Garbage) store_clash fs_two_files
           ["a.pkl"] (Pickle (ObjWorkflowResult store_xy)) TypeError).
  - vm_compute. reflexivity.
  - discriminate.
  - reflexivity.
Defined.




Lemma makedirs_Raise_iff fs d :
  exists_ fs d = false →
  (∃ e, makedirs fs d = Raise e) ↔
  ∃ pre x rest c, d = pre ++ x :: rest ∧ walk fs pre = Some (File c).
Proof.
  unfold exists_. revert fs. induction d as [|x d IH]; intros fs; [done|].
  destruct fs as [c|entries].
  { intros _. split; [intros _|by eexists]. by exists [], x, d, c. }
  cbn [walk makedirs]. destruct (entries !! x) as [child|] eqn:Hx; cbn [mbind option_bind].
  - intros Hex. specialize (IH child Hex).
    destruct (makedirs child d) as [child'|e] eqn:Hm; cbn [mbind res_bind].
    + split; [by intros [? ?]|]. intros (pre & y & rest & c & Hd & Hw).
      destruct pre as [|z pre]; [done|]. injection Hd as <- ->.
      cbn [walk] in Hw. rewrite Hx in Hw. cbn in Hw.
      destruct (proj2 IH) as [? ?]; [|done]. by exists pre, y, rest, c.
    + split; [intros _|by eexists].
      destruct (proj1 IH) as (pre & y & rest & c & -> & Hw); [by eexists|].
      exists (x :: pre), y, rest, c. split; [done|]. cbn [walk]. by rewrite Hx.
  - intros _. split; [by intros [? ?]|]. intros (pre & y & rest & c & Hd & Hw).
    destruct pre as [|z pre]; [done|]. injection Hd as <- ->.
    cbn [walk] in Hw. by rewrite Hx in Hw.
Qed.

(** X24.  [folder_create] raises exactly when a proper prefix of the folder
    path is a regular file. *)
Theorem folder_create_raises_iff fs p :
  (∃ e, folder_create fs p = Raise e) ↔
  ∃ pre x rest c, dirname p = pre ++ x :: rest ∧ walk fs pre = Some (File c).
Proof.
  unfold folder_create.
  destruct (bool_decide (dirname p ≠ []) && negb (exists_ fs (dirname p))) eqn:Hc.
  - apply andb_true_iff in Hc as [_ Hex%negb_true_iff]. by apply makedirs_Raise_iff.
  - split; [by intros [? ?]|]. intros (pre & x & rest & c & Hd & Hw). exfalso.
    apply andb_false_iff in Hc as [Hc%bool_decide_eq_false|Hc%negb_false_iff].
    + apply Hc. rewrite Hd. by destruct pre.
    + unfold exists_ in Hc. rewrite Hd, walk_app, Hw in Hc. done.
Qed.

(** X25.  After a [folder_create] that returns, the folder path exists (or
    the file name has none), a second call changes nothing, and every
    regular file is as it was. *)
Theorem folder_create_post fs p fs' :
  folder_create fs p = Ok fs' →
  (dirname p = [] ∨ exists_ fs' (dirname p) = true)
  ∧ folder_create fs' p = Ok fs'
  ∧ (∀ q c, walk fs q = Some (File c) → walk fs' q = Some (File c)).
Proof.
  intros Hf. pose proof Hf as [->|(Hne & Hex & Hm)]%folder_create_cases.
  - split; [|done]. unfold folder_create in Hf.
    destruct (decide (dirname p = [])) as [?|Hne]; [by left|right].
    rewrite bool_decide_eq_true_2 in Hf by done. cbn in Hf.
    destruct (exists_ fs (dirname p)) eqn:Hex; [done|]. exfalso.
    cbn in Hf. pose proof (makedirs_isdir _ _ _ Hf) as Hd.
    unfold isdir, exists_ in *. by destruct (walk fs (dirname p)).
  - pose proof (makedirs_isdir _ _ _ Hm) as Hd.
    assert (exists_ fs' (dirname p) = true) as Hex'.
    { unfold isdir, exists_ in *. by destruct (walk fs' (dirname p)) as [[?|?]|]. }
    split; [by right|]. split.
    + unfold folder_create. by rewrite Hex', andb_false_r.
    + intros q c Hq. by eapply makedirs_walk_file.
Qed.

Lemma folder_create_post_witness :
  (dirname ["out"; "tssc.pkl"] = []
   ∨ exists_ (Dir {[ "out" := Dir ∅ ]}) (dirname ["out"; "tssc.pkl"]) = true)
  ∧ folder_create (Dir {[ "out" := Dir ∅ ]}) ["out"; "tssc.pkl"]
    = Ok (Dir {[ "out" := Dir ∅ ]})
  ∧ (∀ q c, walk fs_empty q = Some (File c) →
            walk (Dir {[ "out" := Dir ∅ ]}) q = Some (File c)).
Proof.
  apply (folder_create_post fs_empty ["out"; "tssc.pkl"]).
  vm_compute. reflexivity.
Defined.

(** ** The ArgoCD application name *)

Lemma strip_begin_suffix s : strip_begin s `suffix_of` s.
Proof.
  induction s as [|c s IH]; [done|]. cbn. destruct (alnum c); [done|].
  by apply suffix_cons_r.
Qed.

Lemma strip_begin_head s c s' : strip_begin s = c :: s' → alnum c = true.
Proof.
  induction s as [|x s IH]; [done|]. cbn. destruct (alnum x) eqn:Hx; [|done].
  by intros [= <- <-].
Qed.

Lemma strip_begin_alnum c s : alnum c = true → strip_begin (c :: s) = c :: s.
Proof. intros Hc. cbn. by rewrite Hc. Qed.

Lemma strip_begin_Forall (P : N → Prop) s : Forall P s → Forall P (strip_begin s).
Proof.
  destruct (strip_begin_suffix s) as [pre Hpre]. rewrite Hpre at 1.
  by intros [_ ?]%Forall_app.
Qed.

Lemma strip_not_alnum_length s : (length (strip_not_alnum s) ≤ length s)%nat.
Proof.
  unfold strip_not_alnum. rewrite length_reverse.
  etrans; [apply suffix_length, strip_begin_suffix|]. rewrite length_reverse.
  apply suffix_length, strip_begin_suffix.
Qed.

Lemma strip_not_alnum_Forall (P : N → Prop) s :
  Forall P s → Forall P (strip_not_alnum s).
Proof.
  intros Hs. unfold strip_not_alnum.
  by apply Forall_reverse, strip_begin_Forall, Forall_reverse, strip_begin_Forall.
Qed.

Lemma strip_not_alnum_ends s :
  strip_not_alnum s = []
  ∨ ∃ first last, head (strip_not_alnum s) = Some first ∧ alnum first = true
                  ∧ list.last (strip_not_alnum s) = Some last ∧ alnum last = true.
Proof.
  unfold strip_not_alnum.
  destruct (strip_begin (reverse (strip_begin s))) as [|l t] eqn:Hrev; [by left|].
  right. pose proof (strip_begin_head _ _ _ Hrev) as Hl.
  assert (∃ f t', reverse (l :: t) = f :: t' ∧ alnum f = true) as (f & t' & Hf & Hfa).
  { destruct (strip_begin s) as [|f u] eqn:Hs.
    { by rewrite reverse_nil in Hrev. }
    pose proof (strip_begin_head _ _ _ Hs) as Hfa.
    pose proof (strip_begin_suffix (reverse (f :: u))) as [pre Hpre].
    rewrite Hrev in Hpre.
    assert (f :: u = reverse (l :: t) ++ reverse pre) as Hfu.
    { rewrite <-reverse_app, <-Hpre. by rewrite reverse_involutive. }
    destruct (reverse (l :: t)) as [|f' t'] eqn:Hr.
    { apply (f_equal reverse) in Hr. by rewrite reverse_involutive in Hr. }
    injection Hfu as <- _. by exists f, t'. }
  exists f, l. rewrite Hf. split; [done|]. split; [done|]. split; [|done].
  rewrite <-Hf. rewrite reverse_cons. by rewrite last_snoc.
Qed.

Lemma replace_not_safe_Forall s : Forall (λ c, label_safe c = true) (replace_not_safe s).
Proof.
  unfold replace_not_safe. apply Forall_fmap, Forall_forall. intros c _. cbn.
  by destruct (label_safe c) eqn:Hc.
Qed.

Section app_name.
Context (lower : str → str).

(** X26.  The name that [_get_app_name] returns has at most
    [KUBE_LABEL_MAX_LENGTH] characters, all of them in [a-zA-Z0-9-_.], and,
    unless it is empty, starts and ends with a letter or digit; this holds
    whatever [str.lower] returns. *)
Theorem get_app_name_kube_label
    organization application service repo_branch environment :
  let app_name :=
    get_app_name lower organization application service repo_branch environment in
  (length app_name ≤ KUBE_LABEL_MAX_LENGTH)%nat
  ∧ Forall (λ c, label_safe c = true) app_name
  ∧ (app_name = []
     ∨ ∃ first last,
         head app_name = Some first ∧ alnum first = true
         ∧ list.last app_name = Some last ∧ alnum last = true).
Proof.
  cbn zeta. unfold get_app_name.
  set (raw := lower _). clearbody raw.
  set (cut := if decide _ then _ else _).
  assert ((length cut ≤ KUBE_LABEL_MAX_LENGTH)%nat
          ∧ Forall (λ c, label_safe c = true) cut) as [Hlen Hsafe].
  { subst cut. case_decide as Hlong.
    - split; [rewrite length_drop; unfold KUBE_LABEL_MAX_LENGTH in *; lia|].
      apply Forall_drop, replace_not_safe_Forall.
    - split; [lia|apply replace_not_safe_Forall]. }
  split; [etrans; [apply strip_not_alnum_length|exact Hlen]|].
  split; [by apply strip_not_alnum_Forall|apply strip_not_alnum_ends].
Qed.
End app_name.

Lemma strip_begin_split s :
  ∃ pre, s = pre ++ strip_begin s ∧ Forall (λ c, alnum c = false) pre.
Proof.
  induction s as [|c s (pre & Hs & Hpre)]; [by exists []|]. cbn.
  destruct (alnum c) eqn:Hc; [by exists []|].
  exists (c :: pre). split; [by rewrite Hs at 1|by constructor].
Qed.

Lemma strip_not_alnum_split s :
  ∃ pre post,
    s = pre ++ strip_not_alnum s ++ post
    ∧ Forall (λ c, alnum c = false) pre ∧ Forall (λ c, alnum c = false) post.
Proof.
  unfold strip_not_alnum.
  destruct (strip_begin_split s) as (pre & Hs & Hpre).
  destruct (strip_begin_split (reverse (strip_begin s))) as (post & Hr & Hpost).
  exists pre, (reverse post). split; [|split; [done|by apply Forall_reverse]].
  rewrite <-reverse_app, <-Hr, reverse_involutive. exact Hs.
Qed.

Lemma strip_not_alnum_id s first last :
  head s = Some first → alnum first = true →
  list.last s = Some last → alnum last = true →
  strip_not_alnum s = s.
Proof.
  intros Hf Hfa Hl Hla. unfold strip_not_alnum.
  destruct s as [|c s]; [done|]. injection Hf as ->.
  rewrite strip_begin_alnum by done.
  destruct (reverse (first :: s)) as [|c r] eqn:Hrev.
  { apply (f_equal reverse) in Hrev. by rewrite reverse_involutive in Hrev. }
  assert (c = last) as ->.
  { apply (f_equal reverse) in Hrev. rewrite reverse_involutive, reverse_cons in Hrev.
    rewrite Hrev, last_snoc in Hl. by injection Hl. }
  rewrite strip_begin_alnum by done. by rewrite <-Hrev, reverse_involutive.
Qed.

Lemma replace_not_safe_id s :
  Forall (λ c, label_safe c = true) s → replace_not_safe s = s.
Proof.
  unfold replace_not_safe. induction 1 as [|c s Hc _ IH]; [done|].
  cbn. rewrite Hc. by f_equal.
Qed.

Section app_name_more.
Context (lower : str → str).

(** X27.  Without environment, a lowered name that is a valid label already
    (safe characters, at most [KUBE_LABEL_MAX_LENGTH] of them, a letter or
    digit first and last) is returned unchanged. *)
Theorem get_app_name_keeps_valid
    organization application service repo_branch first last :
  let name :=
    lower (organization ++ [45%N] ++ application ++ [45%N] ++ service
           ++ [45%N] ++ repo_branch) in
  Forall (λ c, label_safe c = true) name →
  (length name ≤ KUBE_LABEL_MAX_LENGTH)%nat →
  head name = Some first → alnum first = true →
  list.last name = Some last → alnum last = true →
  get_app_name lower organization application service repo_branch None = name.
Proof.
  cbn zeta. unfold get_app_name. set (name := lower _). clearbody name.
  intros Hsafe Hlen Hf Hfa Hl Hla.
  rewrite replace_not_safe_id by done. rewrite decide_False by lia.
  by eapply strip_not_alnum_id.
Qed.

Lemma cut_and_strip (replaced : str) :
  ∃ cut post,
    replaced
    = cut
        ++ strip_not_alnum
             (if decide (KUBE_LABEL_MAX_LENGTH < length replaced)
              then drop (length replaced - KUBE_LABEL_MAX_LENGTH) replaced
              else replaced)
        ++ post
    ∧ Forall (λ c, alnum c = false) post
    ∧ (length (strip_not_alnum
                 (if decide (KUBE_LABEL_MAX_LENGTH < length replaced)
                  then drop (length replaced - KUBE_LABEL_MAX_LENGTH) replaced
                  else replaced))
       + length post ≤ KUBE_LABEL_MAX_LENGTH)%nat.
Proof.
  set (kept := if decide _ then _ else _).
  assert (∃ cut0, replaced = cut0 ++ kept ∧ (length kept ≤ KUBE_LABEL_MAX_LENGTH)%nat)
    as (cut0 & Hcut & Hlen).
  { subst kept. case_decide.
    - exists (take (length replaced - KUBE_LABEL_MAX_LENGTH) replaced).
      split; [by rewrite take_drop|].
      rewrite length_drop. unfold KUBE_LABEL_MAX_LENGTH in *. lia.
    - exists []. split; [done|lia]. }
  destruct (strip_not_alnum_split kept) as (pre & post & Hk & _ & Hpost).
  exists (cut0 ++ pre), post.
  split; [by rewrite Hcut, Hk at 1; rewrite <-app_assoc|].
  split; [done|].
  apply (f_equal length) in Hk. rewrite !length_app in Hk. lia.
Qed.

(** X28.  [_get_app_name] shortens at the front: the name it returns is a
    segment of the lowered and replaced name that is followed there only by
    characters that are neither letter nor digit, and it ends within the last
    [KUBE_LABEL_MAX_LENGTH] characters. *)
Theorem get_app_name_keeps_the_end
    organization application service repo_branch environment :
  ∃ cut post,
    replace_not_safe
      (lower (organization ++ [45%N] ++ application ++ [45%N] ++ service
              ++ [45%N] ++ repo_branch
              ++ match environment with
                 | Some (c :: e) => [45%N] ++ c :: e
                 | _ => []
                 end))
    = cut
        ++ get_app_name lower organization application service repo_branch environment
        ++ post
    ∧ Forall (λ c, alnum c = false) post
    ∧ (length (get_app_name lower organization application service repo_branch
                 environment)
       + length post ≤ KUBE_LABEL_MAX_LENGTH)%nat.
Proof.
  unfold get_app_name.
  destruct environment as [[|c e]|]; rewrite ?app_nil_r, <-?app_assoc;
    apply cut_and_strip.
Qed.
End app_name_more.

Lemma get_app_name_keeps_valid_witness :
  get_app_name ascii_lower acme shop web main_branch None = lowered_name.
Proof.
  apply (get_app_name_keeps_valid ascii_lower acme shop web main_branch 97%N 110%N).
  - vm_compute. repeat constructor.
  - vm_compute. lia.
  - reflexivity.
  - reflexivity.
  - reflexivity.
  - reflexivity.
Defined.

(** The store that cannot be rendered is built by three upserts. *)
Lemma store_clash_reachable :
  add_step_results new [build_y; build_x_map; build_x] = Ok store_clash.
Proof. vm_compute. reflexivity. Qed.
